(** * numba/typing/templates.py: typing templates and overload resolution

    A shallow embedding of the typing templates of [numba.typing.templates]:
    [Signature], [Rating], the shared resolver
    [FunctionTemplate._resolve_overload], the two template flavours
    ([ConcreteTemplate], [AbstractTemplate]) and the part of the builtin
    catalogue whose behaviour is established below. *)

From Stdlib Require Import List String Ascii Bool Arith Lia ZArith.
From Stdlib Require Import Sorting.Sorted Sorting.Permutation.
Import ListNotations.

Local Open Scope string_scope.
Local Open Scope list_scope.
Local Open Scope nat_scope.

(* ------------------------------------------------------------------------- *)
(** ** The [types] collaborator *)

(** Modelled from the spec: the module [numba.types] is missing; its named
    constants (section 6 of the specification) are the constructors of
    [prim], each equal to itself only. *)
Inductive prim : Set :=
| none | boolean
| int8 | int16 | int32 | int64
| uint8 | uint16 | uint32 | uint64
| float32 | float64
| complex64 | complex128
| slice2_type | slice3_type
| range_state32_type | range_state64_type
| range_iter32_type | range_iter64_type
| len_type | abs_type | slice_type | print_type | range_type.

(** Modelled from the spec: array memory order, [layout] in {C, F, A}. *)
Inductive layout : Set := C | F | A.

(** The Python modules whose attributes are typed here. *)
Inductive pymodule : Set := math | numpy.

(** The template classes that occur inside a [Method] or [Function] type. *)
Inductive template_class : Set :=
| Array_flatten
| Math_unary (fn : string)
| Numpy_unary_ufunc (fn : string)
| Numpy_binary_ufunc (fn : string).

(** Modelled from the spec: the composite types of [numba.types]; two types
    are equal when they are built the same way from equal parts. *)
Inductive ty : Set :=
| Prim (p : prim)
| UniTuple (dtype : ty) (count : nat)
| UniTupleIter (unituple : ty)
| Array (dtype : ty) (ndim : nat) (lay : layout)
| Method (template : template_class) (this : ty)
| Function (template : template_class)
| Module_ (m : pymodule).

Coercion Prim : prim >-> ty.

Definition prim_eq_dec (x y : prim) : {x = y} + {x <> y}.
Proof. decide equality. Defined.

Definition layout_eq_dec (x y : layout) : {x = y} + {x <> y}.
Proof. decide equality. Defined.

Definition template_class_eq_dec (x y : template_class) : {x = y} + {x <> y}.
Proof. decide equality; apply string_dec. Defined.

Definition ty_eq_dec (x y : ty) : {x = y} + {x <> y}.
Proof.
  decide equality;
    solve [ apply prim_eq_dec | apply Nat.eq_dec | apply layout_eq_dec
          | apply template_class_eq_dec | decide equality ].
Defined.

(** Python's [==] on two types. *)
Definition ty_eqb (x y : ty) : bool := if ty_eq_dec x y then true else false.

(** [==] on tuples of types, and on an optional receiver ([None] is a
    receiver of its own). *)
Definition args_eqb (xs ys : list ty) : bool :=
  if list_eq_dec ty_eq_dec xs ys then true else false.

Definition recvr_eqb (x y : option ty) : bool :=
  match x, y with
  | Some a, Some b => ty_eqb a b
  | None, None => true
  | _, _ => false
  end.

(** [isinstance(t, types.UniTuple)] and [isinstance(t, types.Array)]. *)
Definition is_UniTuple (t : ty) : bool :=
  match t with UniTuple _ _ => true | _ => false end.

Definition is_Array (t : ty) : bool :=
  match t with Array _ _ _ => true | _ => false end.

(** [Array.copy(dtype=None, ndim=None, layout=None)]: a keyword left out
    keeps the field of the array copied. *)
Definition Array_copy (ary : ty) (dtype' : option ty) (ndim' : option nat)
           (layout' : option layout) : option ty :=
  match ary with
  | Array d n l =>
      Some (Array (match dtype' with Some d' => d' | None => d end)
                  (match ndim' with Some n' => n' | None => n end)
                  (match layout' with Some l' => l' | None => l end))
  | _ => None
  end.

(* ------------------------------------------------------------------------- *)
(** ** Exceptions and results *)

Inductive exn : Set :=
| AssertionError
| ValueError                                  (* a failed unpacking of [args] *)
| AttributeError
| NotImplementedError (value : ty) (attr : string)
| TypeError (msg : string)
| Exception_unreachable (by_ : option string).

Inductive res (X : Type) : Type :=
| Ret (x : X)
| Raise (e : exn).

Arguments Ret {X} x.
Arguments Raise {X} e.

Definition bind {X Y} (m : res X) (k : X -> res Y) : res Y :=
  match m with
  | Ret x => k x
  | Raise e => Raise e
  end.

Notation "x <- m ;; k" := (bind m (fun x => k))
  (at level 61, m at next level, right associativity).

(** Keyword arguments: a dict from names to types. *)
Definition kwargs := list (string * ty).

(** [assert not kws] *)
Definition assert_not {X} (l : list X) : res unit :=
  match l with
  | [] => Ret tt
  | _ :: _ => Raise AssertionError
  end.

(* ------------------------------------------------------------------------- *)
(** ** Signature *)

Record Signature : Set := mkSignature {
  return_type : ty;
  args : list ty;
  recvr : option ty
}.

(** [signature(return_type, *args, recvr=None)] *)
Definition signature (return_type : ty) (args : list ty) : Signature :=
  mkSignature return_type args None.

Definition signature_recvr (return_type : ty) (args : list ty) (recvr : ty)
  : Signature :=
  mkSignature return_type args (Some recvr).

(** [Signature.__eq__] between two signatures. *)
Definition Signature_eq (self other : Signature) : bool :=
  args_eqb (args self) (args other) && recvr_eqb (recvr self) (recvr other).

(** [Signature.__ne__] *)
Definition Signature_ne (self other : Signature) : bool :=
  negb (Signature_eq self other).

(** [Signature.is_method] *)
Definition is_method (self : Signature) : bool :=
  match recvr self with Some _ => true | None => false end.

Section Hashing.
(** Python's [hash] of a tuple of types. *)
Variable hash_tuple : list ty -> Z.

(** [Signature.__hash__] *)
Definition Signature_hash (self : Signature) : Z := hash_tuple (args self).

(** A Python [set] of signatures, in insertion order: an element is
    already present when some member has the same hash and compares
    equal to it. *)
Definition set_contains (s : list Signature) (x : Signature) : bool :=
  existsb (fun y => Z.eqb (Signature_hash y) (Signature_hash x)
                    && Signature_eq y x) s.

Definition set_add (s : list Signature) (x : Signature) : list Signature :=
  if set_contains s x then s else s ++ [x].

(** [set(xs)] *)
Definition set_of (xs : list Signature) : list Signature :=
  fold_left set_add xs [].
End Hashing.

(* ------------------------------------------------------------------------- *)
(** ** Rating *)

Record Rating : Set := mkRating {
  promote : nat;
  safe_convert : nat;
  unsafe_convert : nat
}.

(** [Rating.__init__] *)
Definition Rating_init : Rating := mkRating 0 0 0.

(** [Rating.astuple]: the worse situation first. *)
Definition astuple (self : Rating) : nat * nat * nat :=
  (unsafe_convert self, safe_convert self, promote self).

(** Python's [<] and [==] on the tuples [astuple] returns. *)
Definition tuple_ltb (x y : nat * nat * nat) : bool :=
  let '(u1, s1, p1) := x in
  let '(u2, s2, p2) := y in
  if u1 <? u2 then true
  else if u1 =? u2 then
    if s1 <? s2 then true
    else if s1 =? s2 then p1 <? p2
    else false
  else false.

Definition tuple_eqb (x y : nat * nat * nat) : bool :=
  let '(u1, s1, p1) := x in
  let '(u2, s2, p2) := y in
  (u1 =? u2) && (s1 =? s2) && (p1 =? p2).

(** The lexicographic order on [(unsafe_convert, safe_convert, promote)]. *)
Definition tuple_lt (x y : nat * nat * nat) : Prop :=
  let '(u1, s1, p1) := x in
  let '(u2, s2, p2) := y in
  u1 < u2 \/ (u1 = u2 /\ (s1 < s2 \/ (s1 = s2 /\ p1 < p2))).

(** [x] does not come after [y]: [y < x] is false. *)
Definition tuple_le (x y : nat * nat * nat) : Prop := tuple_ltb y x = false.

(* ------------------------------------------------------------------------- *)
(** ** [sorted] *)

Section Sorted.
Variable X : Type.
Variable key : X -> nat * nat * nat.

(** Python's [sorted(xs, key=key)]: ascending on the keys, compared with
    [<] only, and stable: elements with equal keys keep their order. *)
Fixpoint insert (x : X) (l : list X) : list X :=
  match l with
  | [] => [x]
  | y :: l' => if tuple_ltb (key y) (key x) then y :: insert x l' else x :: l
  end.

Definition sorted (l : list X) : list X := fold_right insert [] l.

(** The order of the keys, on the elements. *)
Definition key_le (a b : X) : Prop := tuple_le (key a) (key b).
End Sorted.

Arguments insert {X} key x l.
Arguments sorted {X} key l.
Arguments key_le {X} key a b.

(* ------------------------------------------------------------------------- *)
(** ** FunctionTemplate *)

Definition newline : string := String (ascii_of_nat 10) EmptyString.

Section FunctionTemplate.
(** [self.context.type_compatibility]: [None], or the name of a verdict. *)
Variable type_compatibility : ty -> ty -> option string.
(** [self.key], [args] and the types inside a signature as ["%s"] renders
    them. *)
Variable str_key : string.
Variable str_tuple : list ty -> string.
Variable str_type : ty -> string.

(** [Signature.__repr__], which [str(case)] calls. *)
Definition Signature_repr (self : Signature) : string :=
  String.append (str_tuple (args self))
                (String.append " -> " (str_type (return_type self))).

(** The inner loop of [_resolve_overload] over [zip(args, case.args)]:
    [Ret None] is the [break], [Ret (Some rate)] reaches the loop's [else]. *)
Fixpoint rate_args (rate : Rating) (pairs : list (ty * ty))
  : res (option Rating) :=
  match pairs with
  | [] => Ret (Some rate)
  | (actual, formal) :: pairs' =>
      match type_compatibility actual formal with
      | None => Ret None
      | Some by_ =>
          if String.eqb by_ "promote" then
            rate_args (mkRating (promote rate + 1) (safe_convert rate)
                                (unsafe_convert rate)) pairs'
          else if String.eqb by_ "safe" then
            rate_args (mkRating (promote rate) (safe_convert rate + 1)
                                (unsafe_convert rate)) pairs'
          else if String.eqb by_ "unsafe" then
            rate_args (mkRating (promote rate) (safe_convert rate)
                                (unsafe_convert rate + 1)) pairs'
          else if String.eqb by_ "exact" then
            rate_args rate pairs'
          else Raise (Exception_unreachable (Some by_))
      end
  end.

(** The body of [for case in cases] for one case. *)
Definition rate_case (args_ : list ty) (case : Signature)
  : res (option Rating) :=
  if List.length args_ =? List.length (args case) then
    rate_args Rating_init (combine args_ (args case))
  else Ret None.

(** The loop [for case in cases], threading [ratings] and [candids]. *)
Fixpoint rate_cases (cases : list Signature) (args_ : list ty)
         (ratings : list (nat * nat * nat)) (candids : list Signature)
  : res (list (nat * nat * nat) * list Signature) :=
  match cases with
  | [] => Ret (ratings, candids)
  | case :: cases' =>
      r <- rate_case args_ case ;;
      match r with
      | Some rate =>
          rate_cases cases' args_ (ratings ++ [astuple rate])
                     (candids ++ [case])
      | None => rate_cases cases' args_ ratings candids
      end
  end.

(** The verdicts [_resolve_overload] knows. *)
Definition recognised (by_ : string) : Prop :=
  by_ = "promote" \/ by_ = "safe" \/ by_ = "unsafe" \/ by_ = "exact".

(** [zip(ratings, candids)] at the end of the loop, as one list. *)
Fixpoint rated (cases : list Signature) (args_ : list ty)
  : res (list (nat * nat * nat * Signature)) :=
  match cases with
  | [] => Ret []
  | case :: cases' =>
      r <- rate_case args_ case ;;
      l <- rated cases' args_ ;;
      Ret (match r with
           | Some rate => (astuple rate, case) :: l
           | None => l
           end)
  end.

(** The names of the cases whose rating is [first], in the order of
    [ordered]. *)
Definition ambiguous_of (first : nat * nat * nat)
           (ordered : list (nat * nat * nat * Signature)) : list string :=
  map (fun rc => Signature_repr (snd rc))
      (filter (fun rc => tuple_eqb (fst rc) first) ordered).

(** ["Ambiguous overloading for %s %s\n%s" % (self.key, args, ...)] *)
Definition ambiguous_msg (args_ : list ty) (ambiguous : list string)
  : string :=
  String.append "Ambiguous overloading for "
    (String.append str_key
       (String.append " "
          (String.append (str_tuple args_)
             (String.append newline (String.concat newline ambiguous))))).

(** Find the best case. *)
Definition best_case (args_ : list ty)
           (ordered : list (nat * nat * nat * Signature))
  : res (option Signature) :=
  match ordered with
  | [] => Ret None
  | [(first, case1)] => Ret (Some case1)
  | (first, case1) :: (second, case2) :: _ =>
      if tuple_eqb first second then
        Raise (TypeError (ambiguous_msg args_ (ambiguous_of first ordered)))
      else Ret (Some case1)
  end.

(** [FunctionTemplate._resolve_overload] *)
Definition _resolve_overload (cases : list Signature) (args_ : list ty)
           (kws : kwargs) : res (option Signature) :=
  _ <- assert_not kws ;;
  rc <- rate_cases cases args_ [] [] ;;
  best_case args_ (sorted fst (combine (fst rc) (snd rc))).

(** [FunctionTemplate._select] *)
Definition _select (cases : list Signature) (args_ : list ty) (kws : kwargs)
  : res (option Signature) :=
  _resolve_overload cases args_ kws.

(** [ConcreteTemplate.apply] *)
Definition ConcreteTemplate_apply (cases : list Signature) (args_ : list ty)
           (kws : kwargs) : res (option Signature) :=
  match cases with
  | [] => Raise AssertionError
  | _ :: _ => _select cases args_ kws
  end.

(** [AbstractTemplate.apply]; a [Signature] is always true. *)
Definition AbstractTemplate_apply
           (generic : list ty -> kwargs -> res (option Signature))
           (args_ : list ty) (kws : kwargs) : res (option Signature) :=
  sig <- generic args_ kws ;;
  match sig with
  | Some sig => _select [sig] args_ kws
  | None => Ret None
  end.

End FunctionTemplate.

(* ------------------------------------------------------------------------- *)
(** ** The builtin catalogue *)

Section Builtins.
(** [types.intp], the platform integer: one of the named types. *)
Variable intp : prim.

(** [normalize_index] *)
Definition normalize_index (index : ty) : ty :=
  match index with
  | UniTuple _ count => UniTuple intp count
  | _ =>
      if ty_eqb index slice3_type then Prim slice3_type
      else if ty_eqb index slice2_type then Prim slice2_type
      else Prim intp
  end.

(** The four shapes a normalised index can have. *)
Inductive normal_index : ty -> Prop :=
| normal_UniTuple count : normal_index (UniTuple intp count)
| normal_slice2 : normal_index slice2_type
| normal_slice3 : normal_index slice3_type
| normal_intp : normal_index intp.

(** [Slice.cases] *)
Definition Slice_cases : list Signature :=
  [ signature slice2_type [Prim intp; Prim intp];
    signature slice3_type [Prim intp; Prim intp; Prim intp] ].

(** [Range.cases] *)
Definition Range_cases : list Signature :=
  [ signature range_state32_type [Prim int32];
    signature range_state32_type [Prim int32; Prim int32; Prim int32];
    signature range_state64_type [Prim int64];
    signature range_state64_type [Prim int64; Prim int64];
    signature range_state64_type [Prim int64; Prim int64; Prim int64] ].

(** [GetItemUniTuple.generic] *)
Definition GetItemUniTuple_generic (args_ : list ty) (kws : kwargs)
  : res (option Signature) :=
  match args_ with
  | [tup; idx] =>
      match tup with
      | UniTuple dtype _ =>
          Ret (Some (signature dtype [tup; normalize_index idx]))
      | _ => Ret None
      end
  | _ => Raise ValueError
  end.

(** [GetItemArray.generic]; [len] of a [UniTuple] is its [count]. *)
Definition GetItemArray_generic (args_ : list ty) (kws : kwargs)
  : res (option Signature) :=
  _ <- assert_not kws ;;
  match args_ with
  | [ary; idx] =>
      match ary with
      | Array dtype ndim _ =>
          let idx := normalize_index idx in
          if ty_eqb idx slice2_type || ty_eqb idx slice3_type then
            match Array_copy ary None None (Some A) with
            | Some res_ => Ret (Some (signature res_ [ary; idx]))
            | None => Raise AttributeError
            end
          else
            match idx with
            | UniTuple _ count =>
                if count <? ndim then Ret None
                else if ndim <? count then Ret None
                else Ret (Some (signature dtype [ary; idx]))
            | _ =>
                if ty_eqb idx intp then
                  if negb (ndim =? 1) then Ret None
                  else Ret (Some (signature dtype [ary; idx]))
                else Raise (Exception_unreachable None)
            end
      | _ => Ret None
      end
  | _ => Raise ValueError
  end.

(** [SetItemArray.generic] *)
Definition SetItemArray_generic (args_ : list ty) (kws : kwargs)
  : res (option Signature) :=
  _ <- assert_not kws ;;
  match args_ with
  | [ary; idx; val] =>
      match ary with
      | Array dtype _ _ =>
          Ret (Some (signature none [ary; normalize_index idx; dtype]))
      | _ => Ret None
      end
  | _ => Raise ValueError
  end.

(** [ArrayAttribute.resolve_shape] *)
Definition resolve_shape (ary : ty) : res ty :=
  match ary with
  | Array _ ndim _ => Ret (UniTuple intp ndim)
  | _ => Raise AttributeError
  end.

(** [ArrayAttribute.resolve_flatten] *)
Definition resolve_flatten (ary : ty) : res ty :=
  Ret (Method Array_flatten ary).

(** [AttributeTemplate.resolve] on [ArrayAttribute], whose handlers are
    [resolve_shape] and [resolve_flatten]. *)
Definition ArrayAttribute_resolve (value : ty) (attr : string) : res ty :=
  if String.eqb attr "shape" then resolve_shape value
  else if String.eqb attr "flatten" then resolve_flatten value
  else Raise (NotImplementedError value attr).

(** [Array_flatten.generic], with [self.this] as [this]. *)
Definition Array_flatten_generic (this : ty) (args_ : list ty) (kws : kwargs)
  : res (option Signature) :=
  _ <- assert_not args_ ;;
  _ <- assert_not kws ;;
  match this with
  | Array _ _ lay =>
      if layout_eq_dec lay C then
        match Array_copy this None (Some 1) None with
        | Some resty => Ret (Some (signature_recvr resty [] this))
        | None => Raise AttributeError
        end
      else Ret None
  | _ => Raise AttributeError
  end.

(** [Numpy_unary_ufunc.generic] *)
Definition Numpy_unary_ufunc_generic (args_ : list ty) (kws : kwargs)
  : res (option Signature) :=
  _ <- assert_not kws ;;
  match args_ with
  | [inp; out] =>
      match inp, out with
      | Array dinp _ _, Array dout _ _ =>
          if negb (ty_eqb dinp dout) then Ret None
          else Ret (Some (signature out [inp; out]))
      | _, _ => Ret None
      end
  | _ => Raise ValueError
  end.

(** [Numpy_binary_ufunc.generic] *)
Definition Numpy_binary_ufunc_generic (args_ : list ty) (kws : kwargs)
  : res (option Signature) :=
  _ <- assert_not kws ;;
  match args_ with
  | [vx; wy; out] =>
      match vx, wy, out with
      | Array dvx _ _, Array dwy _ _, Array dout _ _ =>
          if negb (ty_eqb dvx dwy) && negb (ty_eqb dvx dout) then Ret None
          else Ret (Some (signature out [vx; wy; out]))
      | _, _, _ => Ret None
      end
  | _ => Raise ValueError
  end.

Section Calls.
Variable type_compatibility : ty -> ty -> option string.
Variable str_key : string.
Variable str_tuple : list ty -> string.
Variable str_type : ty -> string.

(** [GetItemArray.apply] *)
Definition GetItemArray_apply : list ty -> kwargs -> res (option Signature) :=
  AbstractTemplate_apply type_compatibility str_key str_tuple str_type
                         GetItemArray_generic.

(** Modelled from the spec: a call through [Method(template, this)]: the
    template is instantiated, the receiver is stored in its [this] and the
    template is applied to the arguments of the call. *)
Definition Method_apply (m : ty) (args_ : list ty) (kws : kwargs)
  : res (option Signature) :=
  match m with
  | Method Array_flatten this =>
      AbstractTemplate_apply type_compatibility str_key str_tuple str_type
                             (Array_flatten_generic this) args_ kws
  | _ => Raise AttributeError
  end.
End Calls.

End Builtins.

(* ------------------------------------------------------------------------- *)
(** ** A context for the examples *)

(** An oracle for the examples: equal types are exact, [int32] promotes to
    [int64], [int32] converts safely to [float64] and [int64] unsafely to
    [int32]. *)
Definition example_compatibility (actual formal : ty) : option string :=
  if ty_eqb actual formal then Some "exact"
  else if ty_eqb actual int32 && ty_eqb formal int64 then Some "promote"
  else if ty_eqb actual int32 && ty_eqb formal float64 then Some "safe"
  else if ty_eqb actual int64 && ty_eqb formal int32 then Some "unsafe"
  else None.

(** The names of some types, and a tuple of types as ["%s"] shows it. *)
Definition example_str_type (t : ty) : string :=
  match t with
  | Prim int32 => "int32"
  | Prim int64 => "int64"
  | Prim float64 => "float64"
  | Prim range_state32_type => "range_state32"
  | Prim range_state64_type => "range_state64"
  | _ => "?"
  end.

Definition example_str_tuple (l : list ty) : string :=
  match l with
  | [t] => String.append "(" (String.append (example_str_type t) ",)")
  | _ =>
      String.append "("
        (String.append (String.concat ", " (map example_str_type l)) ")")
  end.

(* ------------------------------------------------------------------------- *)
(** ** Downcasts *)

(** [_uses_downcast] *)
Fixpoint _uses_downcast (dists : list Z) : bool :=
  match dists with
  | [] => false
  | d :: dists' => if (d <? 0)%Z then true else _uses_downcast dists'
  end.

(** The loop of [_sum_downcast], from the counter [c]. *)
Fixpoint _sum_downcast_from (c : Z) (dists : list Z) : Z :=
  match dists with
  | [] => c
  | d :: dists' =>
      _sum_downcast_from (if (d <? 0)%Z then (c + Z.abs d)%Z else c) dists'
  end.

(** [_sum_downcast] *)
Definition _sum_downcast (dists : list Z) : Z := _sum_downcast_from 0%Z dists.

(* ------------------------------------------------------------------------- *)
(** ** Counting verdicts *)

(** The pairs of [pairs] on which the oracle answers [verdict]. *)
Definition verdict_count (tc : ty -> ty -> option string) (verdict : string)
           (pairs : list (ty * ty)) : nat :=
  List.length
    (filter (fun p => match tc (fst p) (snd p) with
                      | Some by_ => String.eqb by_ verdict
                      | None => false
                      end) pairs).

(** An oracle that knows the four verdicts only, and for which a type is an
    exact match of itself and of no other type. *)
Definition sane_oracle (tc : ty -> ty -> option string) : Prop :=
  (forall actual formal by_, tc actual formal = Some by_ -> recognised by_) /\
  (forall actual formal, tc actual formal = Some "exact" <-> actual = formal).

(* ------------------------------------------------------------------------- *)
(** ** The registries *)

Section Registry.
(** The template classes, and [issubclass(template, AttributeTemplate)]. *)
Variable template : Type.
Variable issubclass_AttributeTemplate : template -> bool.
(** The Python values and the types bound to them. *)
Variable value : Type.

(** The three module-level lists. *)
Record registry : Type := mkRegistry {
  BUILTINS : list template;
  BUILTIN_ATTRS : list template;
  BUILTIN_GLOBALS : list (value * ty)
}.

Definition registry_init : registry := mkRegistry [] [] [].

(** [builtin]: the registry afterwards, and the template it returns. *)
Definition builtin (reg : registry) (t : template) : registry * template :=
  if issubclass_AttributeTemplate t
  then (mkRegistry (BUILTINS reg) (BUILTIN_ATTRS reg ++ [t])
                   (BUILTIN_GLOBALS reg), t)
  else (mkRegistry (BUILTINS reg ++ [t]) (BUILTIN_ATTRS reg)
                   (BUILTIN_GLOBALS reg), t).

(** [builtin_global] *)
Definition builtin_global (reg : registry) (v : value) (t : ty) : registry :=
  mkRegistry (BUILTINS reg) (BUILTIN_ATTRS reg)
             (BUILTIN_GLOBALS reg ++ [(v, t)]).

(** A run of [@builtin] decorations, in the order of the file. *)
Definition builtin_all (reg : registry) (ts : list template) : registry :=
  fold_left (fun reg t => fst (builtin reg t)) ts reg.
End Registry.

Arguments BUILTINS {template value} r.
Arguments BUILTIN_ATTRS {template value} r.
Arguments BUILTIN_GLOBALS {template value} r.
Arguments registry_init {template value}.
Arguments builtin {template} issubclass_AttributeTemplate {value} reg t.
Arguments builtin_global {template value} reg v t.
Arguments builtin_all {template} issubclass_AttributeTemplate {value} reg ts.

(** The values the file binds a type to. *)
Inductive pyvalue : Set :=
| py_range | py_xrange | py_len | py_slice | py_abs | py_print
| py_module (m : pymodule)
| py_function (m : pymodule) (name : string).

(** [PYVERSION < (3, 0)] *)
Definition before_python3 (PYVERSION : nat * nat) : bool :=
  let '(major, minor) := PYVERSION in
  if major <? 3 then true
  else if major =? 3 then minor <? 0
  else false.

(** The classes [Math_fabs] ... [Math_atanh], each a [Math_unary] with its
    own key. *)
Definition Math_fabs := Math_unary "fabs".
Definition Math_exp := Math_unary "exp".
Definition Math_sqrt := Math_unary "sqrt".
Definition Math_log := Math_unary "log".
Definition Math_sin := Math_unary "sin".
Definition Math_cos := Math_unary "cos".
Definition Math_tan := Math_unary "tan".
Definition Math_sinh := Math_unary "sinh".
Definition Math_cosh := Math_unary "cosh".
Definition Math_tanh := Math_unary "tanh".
Definition Math_asin := Math_unary "asin".
Definition Math_acos := Math_unary "acos".
Definition Math_atan := Math_unary "atan".
Definition Math_asinh := Math_unary "asinh".
Definition Math_acosh := Math_unary "acosh".
Definition Math_atanh := Math_unary "atanh".

(** The classes [Numpy_absolute] ... [Numpy_divide]. *)
Definition Numpy_absolute := Numpy_unary_ufunc "absolute".
Definition Numpy_sin := Numpy_unary_ufunc "sin".
Definition Numpy_cos := Numpy_unary_ufunc "cos".
Definition Numpy_tan := Numpy_unary_ufunc "tan".
Definition Numpy_exp := Numpy_unary_ufunc "exp".
Definition Numpy_add := Numpy_binary_ufunc "add".
Definition Numpy_subtract := Numpy_binary_ufunc "subtract".
Definition Numpy_multiply := Numpy_binary_ufunc "multiply".
Definition Numpy_divide := Numpy_binary_ufunc "divide".

(** The calls of [builtin_global] of the file, in its order. *)
Definition module_globals {template : Type} (PYVERSION : nat * nat)
           (reg : registry template pyvalue) : registry template pyvalue :=
  let reg := builtin_global reg py_range range_type in
  let reg := if before_python3 PYVERSION
             then builtin_global reg py_xrange range_type else reg in
  let reg := builtin_global reg py_len len_type in
  let reg := builtin_global reg py_slice slice_type in
  let reg := builtin_global reg py_abs abs_type in
  let reg := builtin_global reg py_print print_type in
  let reg := builtin_global reg (py_module math) (Module_ math) in
  let reg := builtin_global reg (py_function math "fabs") (Function Math_fabs) in
  let reg := builtin_global reg (py_function math "exp") (Function Math_exp) in
  let reg := builtin_global reg (py_function math "sqrt") (Function Math_sqrt) in
  let reg := builtin_global reg (py_function math "log") (Function Math_log) in
  let reg := builtin_global reg (py_function math "sin") (Function Math_sin) in
  let reg := builtin_global reg (py_function math "cos") (Function Math_cos) in
  let reg := builtin_global reg (py_function math "tan") (Function Math_tan) in
  let reg := builtin_global reg (py_function math "sinh") (Function Math_sinh) in
  let reg := builtin_global reg (py_function math "cosh") (Function Math_cosh) in
  let reg := builtin_global reg (py_function math "tanh") (Function Math_tanh) in
  let reg := builtin_global reg (py_function math "asin") (Function Math_asin) in
  let reg := builtin_global reg (py_function math "acos") (Function Math_acos) in
  let reg := builtin_global reg (py_function math "atan") (Function Math_atan) in
  let reg := builtin_global reg (py_function math "asinh")
                            (Function Math_asinh) in
  let reg := builtin_global reg (py_function math "acosh")
                            (Function Math_acosh) in
  let reg := builtin_global reg (py_function math "atanh")
                            (Function Math_atanh) in
  let reg := builtin_global reg (py_module numpy) (Module_ numpy) in
  let reg := builtin_global reg (py_function numpy "absolute")
                            (Function Numpy_absolute) in
  let reg := builtin_global reg (py_function numpy "exp")
                            (Function Numpy_exp) in
  let reg := builtin_global reg (py_function numpy "sin")
                            (Function Numpy_sin) in
  let reg := builtin_global reg (py_function numpy "cos")
                            (Function Numpy_cos) in
  let reg := builtin_global reg (py_function numpy "tan")
                            (Function Numpy_tan) in
  let reg := builtin_global reg (py_function numpy "add")
                            (Function Numpy_add) in
  let reg := builtin_global reg (py_function numpy "subtract")
                            (Function Numpy_subtract) in
  let reg := builtin_global reg (py_function numpy "multiply")
                            (Function Numpy_multiply) in
  builtin_global reg (py_function numpy "divide") (Function Numpy_divide).

(* ------------------------------------------------------------------------- *)
(** ** Attribute templates *)

(** The methods [resolve_<name>] of an attribute template, by name. *)
Definition handlers := list (string * (ty -> res ty)).

(** [getattr(self, "resolve_%s" % attr, None)] *)
Fixpoint getattr_resolve (hs : handlers) (attr : string)
  : option (ty -> res ty) :=
  match hs with
  | [] => None
  | (name, fn) :: hs' =>
      if String.eqb attr name then Some fn else getattr_resolve hs' attr
  end.

(** [AttributeTemplate.resolve] *)
Definition AttributeTemplate_resolve (hs : handlers) (value : ty)
           (attr : string) : res ty :=
  match getattr_resolve hs attr with
  | None => Raise (NotImplementedError value attr)
  | Some fn => fn value
  end.

(** [ComplexAttribute], with the [innertype] of the subclass. *)
Definition ComplexAttribute (innertype : ty) : handlers :=
  [ ("real", fun _ => Ret innertype);
    ("imag", fun _ => Ret innertype) ].

(** [Complex64Attribute] and [Complex128Attribute] *)
Definition Complex64Attribute : handlers := ComplexAttribute float32.
Definition Complex128Attribute : handlers := ComplexAttribute float64.

(** [MathModuleAttribute] *)
Definition MathModuleAttribute : handlers :=
  [ ("fabs", fun _ => Ret (Function Math_fabs));
    ("exp", fun _ => Ret (Function Math_exp));
    ("sqrt", fun _ => Ret (Function Math_sqrt));
    ("log", fun _ => Ret (Function Math_log));
    ("sin", fun _ => Ret (Function Math_sin));
    ("cos", fun _ => Ret (Function Math_cos));
    ("tan", fun _ => Ret (Function Math_tan));
    ("sinh", fun _ => Ret (Function Math_sinh));
    ("cosh", fun _ => Ret (Function Math_cosh));
    ("tanh", fun _ => Ret (Function Math_tanh));
    ("asin", fun _ => Ret (Function Math_asin));
    ("acos", fun _ => Ret (Function Math_acos));
    ("atan", fun _ => Ret (Function Math_atan));
    ("asinh", fun _ => Ret (Function Math_asinh));
    ("acosh", fun _ => Ret (Function Math_acosh));
    ("atanh", fun _ => Ret (Function Math_atanh)) ].

(** [NumpyModuleAttribute] *)
Definition NumpyModuleAttribute : handlers :=
  [ ("absolute", fun _ => Ret (Function Numpy_absolute));
    ("exp", fun _ => Ret (Function Numpy_exp));
    ("sin", fun _ => Ret (Function Numpy_sin));
    ("cos", fun _ => Ret (Function Numpy_cos));
    ("tan", fun _ => Ret (Function Numpy_tan));
    ("add", fun _ => Ret (Function Numpy_add));
    ("subtract", fun _ => Ret (Function Numpy_subtract));
    ("multiply", fun _ => Ret (Function Numpy_multiply));
    ("divide", fun _ => Ret (Function Numpy_divide)) ].

(** The attribute template of a module. *)
Definition module_attribute (m : pymodule) : handlers :=
  match m with
  | math => MathModuleAttribute
  | numpy => NumpyModuleAttribute
  end.

(** The values the file binds a type to are compared by name. *)
Definition pyvalue_eq_dec (x y : pyvalue) : {x = y} + {x <> y}.
Proof. decide equality; solve [apply string_dec | decide equality]. Defined.

(** The bindings of the functions of a module that its attribute template
    gives: one for each handler, with the type the handler returns. *)
Definition attribute_bindings (m : pymodule) : list (pyvalue * ty) :=
  flat_map (fun h => match snd h (Module_ m) with
                     | Ret t => [(py_function m (fst h), t)]
                     | Raise _ => []
                     end) (module_attribute m).

(* ------------------------------------------------------------------------- *)
(** ** More of the catalogue *)

(** [t.dtype], which uniform tuples and arrays have. *)
Definition dtype_of (t : ty) : res ty :=
  match t with
  | UniTuple dtype _ => Ret dtype
  | Array dtype _ _ => Ret dtype
  | _ => Raise AttributeError
  end.

(** [GetIter.cases] *)
Definition GetIter_cases : list Signature :=
  [ signature range_iter32_type [Prim range_state32_type];
    signature range_iter64_type [Prim range_state64_type] ].

(** [IterNext.cases] *)
Definition IterNext_cases : list Signature :=
  [ signature int32 [Prim range_iter32_type];
    signature int64 [Prim range_iter64_type] ].

(** [IterValid.cases] *)
Definition IterValid_cases : list Signature :=
  [ signature boolean [Prim range_iter32_type];
    signature boolean [Prim range_iter64_type] ].

(** [BinOp.cases] *)
Definition BinOp_cases : list Signature :=
  [ signature uint8 [Prim uint8; Prim uint8];
    signature uint16 [Prim uint16; Prim uint16];
    signature uint32 [Prim uint32; Prim uint32];
    signature uint64 [Prim uint64; Prim uint64];
    signature int8 [Prim int8; Prim int8];
    signature int16 [Prim int16; Prim int16];
    signature int32 [Prim int32; Prim int32];
    signature int64 [Prim int64; Prim int64];
    signature float32 [Prim float32; Prim float32];
    signature float64 [Prim float64; Prim float64];
    signature complex64 [Prim complex64; Prim complex64];
    signature complex128 [Prim complex128; Prim complex128] ].

(** [BinOpMod.cases] *)
Definition BinOpMod_cases : list Signature :=
  [ signature uint8 [Prim uint8; Prim uint8];
    signature uint16 [Prim uint16; Prim uint16];
    signature uint32 [Prim uint32; Prim uint32];
    signature uint64 [Prim uint64; Prim uint64];
    signature int8 [Prim int8; Prim int8];
    signature int16 [Prim int16; Prim int16];
    signature int32 [Prim int32; Prim int32];
    signature int64 [Prim int64; Prim int64];
    signature float32 [Prim float32; Prim float32];
    signature float64 [Prim float64; Prim float64] ].

(** [BinOpTrueDiv.cases] *)
Definition BinOpTrueDiv_cases : list Signature :=
  [ signature float64 [Prim uint8; Prim uint8];
    signature float64 [Prim uint16; Prim uint16];
    signature float64 [Prim uint32; Prim uint32];
    signature float64 [Prim uint64; Prim uint64];
    signature float64 [Prim int8; Prim int8];
    signature float64 [Prim int16; Prim int16];
    signature float64 [Prim int32; Prim int32];
    signature float64 [Prim int64; Prim int64];
    signature float32 [Prim float32; Prim float32];
    signature float64 [Prim float64; Prim float64];
    signature complex64 [Prim complex64; Prim complex64];
    signature complex128 [Prim complex128; Prim complex128] ].

(** [BinOpFloorDiv.cases] *)
Definition BinOpFloorDiv_cases : list Signature :=
  [ signature int8 [Prim int8; Prim int8];
    signature int16 [Prim int16; Prim int16];
    signature int32 [Prim int32; Prim int32];
    signature int64 [Prim int64; Prim int64];
    signature uint8 [Prim uint8; Prim uint8];
    signature uint16 [Prim uint16; Prim uint16];
    signature uint32 [Prim uint32; Prim uint32];
    signature uint64 [Prim uint64; Prim uint64];
    signature int32 [Prim float32; Prim float32];
    signature int64 [Prim float64; Prim float64] ].

(** [BinOpPower.cases] *)
Definition BinOpPower_cases : list Signature :=
  [ signature float64 [Prim float64; Prim uint8];
    signature float64 [Prim float64; Prim uint16];
    signature float64 [Prim float64; Prim uint32];
    signature float64 [Prim float64; Prim uint64];
    signature float64 [Prim float64; Prim int8];
    signature float64 [Prim float64; Prim int16];
    signature float64 [Prim float64; Prim int32];
    signature float64 [Prim float64; Prim int64];
    signature float32 [Prim float32; Prim float32];
    signature float64 [Prim float64; Prim float64];
    signature complex64 [Prim complex64; Prim complex64];
    signature complex128 [Prim complex128; Prim complex128] ].

(** [CmpOp.cases] *)
Definition CmpOp_cases : list Signature :=
  [ signature boolean [Prim uint8; Prim uint8];
    signature boolean [Prim uint16; Prim uint16];
    signature boolean [Prim uint32; Prim uint32];
    signature boolean [Prim uint64; Prim uint64];
    signature boolean [Prim int8; Prim int8];
    signature boolean [Prim int16; Prim int16];
    signature boolean [Prim int32; Prim int32];
    signature boolean [Prim int64; Prim int64];
    signature boolean [Prim float32; Prim float32];
    signature boolean [Prim float64; Prim float64] ].

(** [Math_unary.cases] *)
Definition Math_unary_cases : list Signature :=
  [ signature float64 [Prim int64];
    signature float64 [Prim uint64];
    signature float32 [Prim float32];
    signature float64 [Prim float64] ].

(** [GetIterUniTuple.generic] *)
Definition GetIterUniTuple_generic (args_ : list ty) (kws : kwargs)
  : res (option Signature) :=
  _ <- assert_not kws ;;
  match args_ with
  | [tup] =>
      if is_UniTuple tup then Ret (Some (signature (UniTupleIter tup) [tup]))
      else Ret None
  | _ => Raise ValueError
  end.

(** [IterNextSafe.generic] *)
Definition IterNextSafe_generic (args_ : list ty) (kws : kwargs)
  : res (option Signature) :=
  _ <- assert_not kws ;;
  match args_ with
  | [tupiter] =>
      match tupiter with
      | UniTupleIter unituple =>
          dtype <- dtype_of unituple ;;
          Ret (Some (signature dtype [tupiter]))
      | _ => Ret None
      end
  | _ => Raise ValueError
  end.

(** [CmpOpEqArray.generic] *)
Definition CmpOpEqArray_generic (args_ : list ty) (kws : kwargs)
  : res (option Signature) :=
  _ <- assert_not kws ;;
  match args_ with
  | [va; vb] =>
      if is_Array va && ty_eqb va vb then
        match Array_copy va (Some (Prim boolean)) None None with
        | Some res_ => Ret (Some (signature res_ [va; vb]))
        | None => Raise AttributeError
        end
      else Ret None
  | _ => Raise ValueError
  end.

Section MoreBuiltins.
Variable intp : prim.

(** [LenArray.generic] *)
Definition LenArray_generic (args_ : list ty) (kws : kwargs)
  : res (option Signature) :=
  _ <- assert_not kws ;;
  match args_ with
  | [ary] =>
      if is_Array ary then Ret (Some (signature intp [ary])) else Ret None
  | _ => Raise ValueError
  end.

(** [ArrayAttribute] *)
Definition ArrayAttribute : handlers :=
  [ ("shape", resolve_shape intp);
    ("flatten", resolve_flatten) ].

(** The case lists of the concrete templates of the file; the cases of
    [Print] and [Abs] are built from lists of [numba.types] and are left
    out. *)
Definition concrete_catalogue : list (list Signature) :=
  [ Slice_cases intp; Range_cases; GetIter_cases; IterNext_cases;
    IterValid_cases; BinOp_cases; BinOpMod_cases; BinOpTrueDiv_cases;
    BinOpFloorDiv_cases; BinOpPower_cases; CmpOp_cases; Math_unary_cases ].

(** The [generic] methods of the abstract templates that are called with
    their arguments alone. *)
Definition abstract_catalogue
  : list (list ty -> kwargs -> res (option Signature)) :=
  [ GetIterUniTuple_generic; IterNextSafe_generic;
    GetItemUniTuple_generic intp; GetItemArray_generic intp;
    SetItemArray_generic intp; LenArray_generic; CmpOpEqArray_generic;
    Numpy_unary_ufunc_generic; Numpy_binary_ufunc_generic ].
End MoreBuiltins.

(* ------------------------------------------------------------------------- *)
(** * Properties *)

(** ** Equality of types *)

Lemma ty_eqb_eq x y : ty_eqb x y = true <-> x = y.
Proof. unfold ty_eqb; destruct (ty_eq_dec x y); split; congruence. Qed.

Lemma ty_eqb_refl x : ty_eqb x x = true.
Proof. now apply ty_eqb_eq. Qed.

Lemma ty_eqb_neq x y : ty_eqb x y = false <-> x <> y.
Proof. unfold ty_eqb; destruct (ty_eq_dec x y); split; congruence. Qed.

Lemma args_eqb_eq xs ys : args_eqb xs ys = true <-> xs = ys.
Proof.
  unfold args_eqb; destruct (list_eq_dec ty_eq_dec xs ys); split; congruence.
Qed.

Lemma recvr_eqb_eq x y : recvr_eqb x y = true <-> x = y.
Proof.
  destruct x, y; simpl; try rewrite ty_eqb_eq; split; congruence.
Qed.

(* ------------------------------------------------------------------------- *)
(** ** The order on rating tuples *)

Lemma tuple_ltb_lt x y : tuple_ltb x y = true <-> tuple_lt x y.
Proof.
  destruct x as [[u1 s1] p1], y as [[u2 s2] p2]. unfold tuple_ltb, tuple_lt.
  destruct (u1 <? u2) eqn:Eu; [apply Nat.ltb_lt in Eu; intuition|].
  apply Nat.ltb_ge in Eu.
  destruct (u1 =? u2) eqn:Eu'.
  - apply Nat.eqb_eq in Eu'.
    destruct (s1 <? s2) eqn:Es; [apply Nat.ltb_lt in Es; intuition|].
    apply Nat.ltb_ge in Es.
    destruct (s1 =? s2) eqn:Es'.
    + apply Nat.eqb_eq in Es'. rewrite Nat.ltb_lt. intuition lia.
    + apply Nat.eqb_neq in Es'. split; [discriminate | lia].
  - apply Nat.eqb_neq in Eu'. split; [discriminate | lia].
Qed.

Lemma tuple_eqb_eq x y : tuple_eqb x y = true <-> x = y.
Proof.
  destruct x as [[u1 s1] p1], y as [[u2 s2] p2]. unfold tuple_eqb.
  rewrite !andb_true_iff, !Nat.eqb_eq. split.
  - intros [[-> ->] ->]. reflexivity.
  - intros E. injection E as -> -> ->. auto.
Qed.

Lemma tuple_eqb_refl x : tuple_eqb x x = true.
Proof. now apply tuple_eqb_eq. Qed.

Lemma tuple_lt_irrefl x : ~ tuple_lt x x.
Proof. destruct x as [[u s] p]. unfold tuple_lt. lia. Qed.

Lemma tuple_lt_trans x y z : tuple_lt x y -> tuple_lt y z -> tuple_lt x z.
Proof.
  destruct x as [[u1 s1] p1], y as [[u2 s2] p2], z as [[u3 s3] p3].
  unfold tuple_lt. lia.
Qed.

Lemma tuple_trichotomy x y : tuple_lt x y \/ x = y \/ tuple_lt y x.
Proof.
  destruct x as [[u1 s1] p1], y as [[u2 s2] p2]. unfold tuple_lt.
  destruct (Nat.lt_trichotomy u1 u2) as [?|[->|?]]; auto.
  destruct (Nat.lt_trichotomy s1 s2) as [?|[->|?]]; auto 6.
  destruct (Nat.lt_trichotomy p1 p2) as [?|[->|?]]; auto 8.
Qed.

Lemma tuple_le_iff x y : tuple_le x y <-> tuple_lt x y \/ x = y.
Proof.
  unfold tuple_le. rewrite <- not_true_iff_false, tuple_ltb_lt. split.
  - intros H. destruct (tuple_trichotomy x y) as [?|[?|?]]; tauto.
  - intros [H| ->] H'.
    + exact (tuple_lt_irrefl _ (tuple_lt_trans _ _ _ H H')).
    + exact (tuple_lt_irrefl _ H').
Qed.

Lemma tuple_le_refl x : tuple_le x x.
Proof. apply tuple_le_iff. now right. Qed.

Lemma tuple_le_trans x y z : tuple_le x y -> tuple_le y z -> tuple_le x z.
Proof.
  rewrite !tuple_le_iff. intros [H| ->] [H'| ->]; auto.
  left. exact (tuple_lt_trans _ _ _ H H').
Qed.

Lemma tuple_le_total x y : tuple_le x y \/ tuple_le y x.
Proof.
  rewrite !tuple_le_iff.
  destruct (tuple_trichotomy x y) as [?|[?|?]]; auto.
Qed.

Lemma tuple_le_lt_false x y : tuple_le x y -> tuple_lt y x -> False.
Proof.
  unfold tuple_le. intros H H'. apply tuple_ltb_lt in H'. congruence.
Qed.

Lemma tuple_le_neq_lt x y : tuple_le x y -> x <> y -> tuple_lt x y.
Proof. rewrite tuple_le_iff. tauto. Qed.

(* ------------------------------------------------------------------------- *)
(** ** [sorted] sorts, permutes and is stable *)

Section SortedFacts.
Context {X : Type}.
Variable key : X -> nat * nat * nat.

Lemma insert_Permutation x l : Permutation (insert key x l) (x :: l).
Proof.
  induction l as [|y l IH]; simpl; [reflexivity|].
  destruct (tuple_ltb (key y) (key x)); [|reflexivity].
  rewrite IH. apply perm_swap.
Qed.

Lemma sorted_Permutation l : Permutation (sorted key l) l.
Proof.
  induction l as [|x l IH]; simpl; [reflexivity|].
  rewrite insert_Permutation. now constructor.
Qed.

Lemma insert_StronglySorted x l :
  StronglySorted (key_le key) l ->
  StronglySorted (key_le key) (insert key x l).
Proof.
  induction 1 as [|y l Hs IH Hy]; simpl.
  - repeat constructor.
  - destruct (tuple_ltb (key y) (key x)) eqn:E.
    + constructor; [exact IH|].
      rewrite Forall_forall in *. intros z Hz.
      apply (Permutation_in _ (insert_Permutation x l)) in Hz.
      destruct Hz as [<-|Hz]; [|now apply Hy].
      apply tuple_le_iff. left. now apply tuple_ltb_lt.
    + constructor; [now constructor|].
      constructor; [exact E|].
      rewrite Forall_forall in *. intros z Hz.
      exact (tuple_le_trans _ _ _ E (Hy z Hz)).
Qed.

Lemma sorted_StronglySorted l : StronglySorted (key_le key) (sorted key l).
Proof.
  induction l as [|x l IH]; simpl; [constructor|].
  now apply insert_StronglySorted.
Qed.

(** Stability: the elements of any one key keep their order. *)
Lemma insert_filter_key k x l :
  filter (fun y => tuple_eqb (key y) k) (insert key x l) =
  filter (fun y => tuple_eqb (key y) k) (x :: l).
Proof.
  induction l as [|y l IH]; [reflexivity|].
  cbn [insert]. destruct (tuple_ltb (key y) (key x)) eqn:E; [|reflexivity].
  cbn [filter] in *. rewrite IH.
  destruct (tuple_eqb (key x) k) eqn:Ex; [|reflexivity].
  destruct (tuple_eqb (key y) k) eqn:Ey; [|reflexivity].
  apply tuple_eqb_eq in Ex, Ey. apply tuple_ltb_lt in E.
  rewrite Ex, Ey in E. destruct (tuple_lt_irrefl _ E).
Qed.

Lemma sorted_filter_key k l :
  filter (fun y => tuple_eqb (key y) k) (sorted key l) =
  filter (fun y => tuple_eqb (key y) k) l.
Proof.
  induction l as [|x l IH]; [reflexivity|].
  cbn [sorted fold_right]. rewrite insert_filter_key.
  cbn [filter]. fold (sorted key l). now rewrite IH.
Qed.

Lemma sorted_length l : List.length (sorted key l) = List.length l.
Proof. apply Permutation_length, sorted_Permutation. Qed.


End SortedFacts.

(* ------------------------------------------------------------------------- *)
(** ** The resolver *)

Section ResolverFacts.
Variable tc : ty -> ty -> option string.
Variable sk : string.
Variable st : list ty -> string.
Variable sy : ty -> string.

(** A rating is only completed over pairs the oracle accepts. *)
Lemma rate_args_Some pairs : forall rate rate',
  rate_args tc rate pairs = Ret (Some rate') ->
  forall actual formal,
    In (actual, formal) pairs ->
    exists by_, tc actual formal = Some by_ /\ recognised by_.
Proof.
  unfold recognised.
  induction pairs as [|[a f] pairs IH]; intros rate rate' H actual formal Hin.
  - destruct Hin.
  - simpl in H. destruct (tc a f) as [by_|] eqn:Eo; [|discriminate].
    destruct Hin as [E|Hin].
    + injection E as <- <-. exists by_. split; [assumption|].
      destruct (String.eqb by_ "promote") eqn:E1;
        [apply String.eqb_eq in E1; auto|].
      destruct (String.eqb by_ "safe") eqn:E2;
        [apply String.eqb_eq in E2; auto|].
      destruct (String.eqb by_ "unsafe") eqn:E3;
        [apply String.eqb_eq in E3; auto|].
      destruct (String.eqb by_ "exact") eqn:E4;
        [apply String.eqb_eq in E4; auto|].
      discriminate.
    + destruct (String.eqb by_ "promote"); [eapply IH; eassumption|].
      destruct (String.eqb by_ "safe"); [eapply IH; eassumption|].
      destruct (String.eqb by_ "unsafe"); [eapply IH; eassumption|].
      destruct (String.eqb by_ "exact"); [eapply IH; eassumption|].
      discriminate.
Qed.

(** With recognised verdicts only, one incompatible pair breaks the loop. *)
Lemma rate_args_None pairs : forall rate,
  (forall actual formal by_,
      In (actual, formal) pairs ->
      tc actual formal = Some by_ -> recognised by_) ->
  (exists actual formal,
      In (actual, formal) pairs /\ tc actual formal = None) ->
  rate_args tc rate pairs = Ret None.
Proof.
  induction pairs as [|[a f] pairs IH]; intros rate Hrec (a' & f' & Hin & Hn).
  - destruct Hin.
  - simpl. destruct (tc a f) as [by_|] eqn:Eo; [|reflexivity].
    assert (Hin' : exists actual formal,
               In (actual, formal) pairs /\ tc actual formal = None).
    { destruct Hin as [E|Hin]; [injection E as <- <-; congruence|eauto]. }
    assert (Hrec' : forall actual formal by_,
               In (actual, formal) pairs ->
               tc actual formal = Some by_ -> recognised by_).
    { intros ? ? ? ?. apply Hrec. now right. }
    destruct (Hrec a f by_ (or_introl eq_refl) Eo) as [->|[->|[->| ->]]];
      simpl; now apply IH.
Qed.

(** The arity gate: no pair is rated. *)
Lemma rate_case_arity args_ case :
  List.length (args case) <> List.length args_ ->
  rate_case tc args_ case = Ret None.
Proof.
  intros H. unfold rate_case.
  destruct (List.length args_ =? List.length (args case)) eqn:E;
    [|reflexivity].
  apply Nat.eqb_eq in E. congruence.
Qed.

Lemma rate_case_Some args_ case rate :
  rate_case tc args_ case = Ret (Some rate) ->
  List.length (args case) = List.length args_ /\
  forall actual formal,
    In (actual, formal) (combine args_ (args case)) ->
    exists by_, tc actual formal = Some by_ /\ recognised by_.
Proof.
  unfold rate_case.
  destruct (List.length args_ =? List.length (args case)) eqn:E;
    [|discriminate].
  apply Nat.eqb_eq in E. intros H. split; [congruence|].
  eapply rate_args_Some; eassumption.
Qed.

Lemma rate_cases_rated cases args_ : forall ratings candids,
  rate_cases tc cases args_ ratings candids =
  (l <- rated tc cases args_ ;;
   Ret (ratings ++ map fst l, candids ++ map snd l)).
Proof.
  induction cases as [|case cases IH]; intros ratings candids; simpl.
  - now rewrite !app_nil_r.
  - destruct (rate_case tc args_ case) as [[rate|]|e]; simpl;
      [| |reflexivity].
    + rewrite IH. destruct (rated tc cases args_); simpl; [|reflexivity].
      now rewrite <- !app_assoc.
    + rewrite IH. now destruct (rated tc cases args_).
Qed.

Lemma combine_fst_snd {X Y} (l : list (X * Y)) :
  combine (map fst l) (map snd l) = l.
Proof. induction l as [|[x y] l IH]; simpl; congruence. Qed.

Lemma rate_cases_inv cases args_ ratings candids :
  rate_cases tc cases args_ [] [] = Ret (ratings, candids) ->
  rated tc cases args_ = Ret (combine ratings candids) /\
  ratings = map fst (combine ratings candids) /\
  candids = map snd (combine ratings candids).
Proof.
  rewrite rate_cases_rated.
  destruct (rated tc cases args_) as [l|e]; simpl; [|discriminate].
  intros E. injection E as <- <-. now rewrite combine_fst_snd.
Qed.

Lemma resolve_rated cases args_ :
  _resolve_overload tc sk st sy cases args_ [] =
  (l <- rated tc cases args_ ;; best_case sk st sy args_ (sorted fst l)).
Proof.
  unfold _resolve_overload. simpl. rewrite rate_cases_rated.
  destruct (rated tc cases args_) as [l|e]; simpl; [|reflexivity].
  now rewrite combine_fst_snd.
Qed.

(** Every survivor is a case that passed the arity gate and was rated to
    the end. *)
Lemma rated_In cases args_ : forall l,
  rated tc cases args_ = Ret l ->
  forall r c,
    In (r, c) l ->
    In c cases /\
    exists rate, rate_case tc args_ c = Ret (Some rate) /\ r = astuple rate.
Proof.
  induction cases as [|case cases IH]; intros l H r c Hin; simpl in H.
  - injection H as <-. destruct Hin.
  - destruct (rate_case tc args_ case) as [o|e] eqn:Ec; [|discriminate].
    simpl in H. destruct (rated tc cases args_) as [l'|e]; [|discriminate].
    simpl in H. injection H as <-.
    destruct o as [rate|].
    + destruct Hin as [E|Hin].
      * injection E as <- <-. split; [now left|eauto].
      * destruct (IH l' eq_refl r c Hin). split; [now right|assumption].
    + destruct (IH l' eq_refl r c Hin). split; [now right|assumption].
Qed.

(** A case the loop drops leaves no trace. *)
Lemma rated_drop args_ c l2 : forall l1,
  rate_case tc args_ c = Ret None ->
  rated tc (l1 ++ c :: l2) args_ = rated tc (l1 ++ l2) args_.
Proof.
  intros l1 Hc. induction l1 as [|x l1 IH]; simpl.
  - rewrite Hc. simpl. now destruct (rated tc l2 args_).
  - now rewrite IH.
Qed.

Lemma resolve_drop args_ kws c l1 l2 :
  rate_case tc args_ c = Ret None ->
  _resolve_overload tc sk st sy (l1 ++ c :: l2) args_ kws =
  _resolve_overload tc sk st sy (l1 ++ l2) args_ kws.
Proof.
  intros Hc. destruct kws; [|reflexivity].
  now rewrite !resolve_rated, rated_drop.
Qed.

(** [best_case] returns the head of [ordered], if anything. *)
Lemma best_case_Some args_ ordered c :
  best_case sk st sy args_ ordered = Ret (Some c) ->
  exists r rest, ordered = (r, c) :: rest.
Proof.
  destruct ordered as [|[first case1] [|[second case2] rest]]; simpl.
  - discriminate.
  - intros E. injection E as <-. eauto.
  - destruct (tuple_eqb first second); [discriminate|].
    intros E. injection E as <-. eauto.
Qed.

(** The head of the sorted survivors is a survivor of the least rating. *)
Lemma sorted_head (l : list (nat * nat * nat * Signature)) x rest :
  sorted fst l = x :: rest ->
  In x l /\ (forall y, In y l -> tuple_le (fst x) (fst y)) /\
  (forall y, In y rest -> tuple_le (fst x) (fst y)).
Proof.
  intros E.
  assert (Hp := sorted_Permutation fst l). rewrite E in Hp.
  assert (Hs := sorted_StronglySorted fst l). rewrite E in Hs.
  apply StronglySorted_inv in Hs. destruct Hs as [_ Hs].
  rewrite Forall_forall in Hs.
  split; [apply (Permutation_in _ Hp); now left|].
  split; [|exact Hs].
  intros y Hin. apply (Permutation_in _ (Permutation_sym Hp)) in Hin.
  destruct Hin as [<-|Hin]; [apply tuple_le_refl|exact (Hs _ Hin)].
Qed.

Lemma resolve_Some cases args_ kws c :
  _resolve_overload tc sk st sy cases args_ kws = Ret (Some c) ->
  exists l r,
    rated tc cases args_ = Ret l /\ In (r, c) l /\
    forall y, In y l -> tuple_le r (fst y).
Proof.
  destruct kws; [|discriminate].
  rewrite resolve_rated.
  destruct (rated tc cases args_) as [l|e]; simpl; [|discriminate].
  intros H. destruct (best_case_Some _ _ _ H) as (r & rest & E).
  exists l, r. split; [reflexivity|].
  destruct (sorted_head _ _ _ E) as (Hin & Hle & _). now split.
Qed.

End ResolverFacts.

(* ------------------------------------------------------------------------- *)
(** ** Ranking *)



(* ------------------------------------------------------------------------- *)
(** ** Ambiguity *)

Lemma filter_none {X} (f : X -> bool) (l : list X) :
  (forall x, In x l -> f x = false) -> filter f l = [].
Proof.
  induction l as [|x l IH]; intros H; [reflexivity|].
  simpl. rewrite (H x (or_introl eq_refl)). apply IH.
  intros y Hy. apply H. now right.
Qed.

(** C2. When two or more candidates are rated, the resolver compares the
    least rating [first] with the next one [second]. If they are equal it
    raises the ambiguity [TypeError] and returns no candidate; the message
    is the heading "Ambiguous overloading for", the key and the arguments,
    followed by one line "<args> -> <return type>" for each rated candidate
    whose rating is [first] (all of them, in the order of the cases, and no
    other candidate). If they differ, exactly one candidate has the least
    rating and it is returned. *)
Theorem ambiguity_detected :
  forall (tc : ty -> ty -> option string) (sk : string)
         (st : list ty -> string) (sy : ty -> string)
         (cases : list Signature) (args_ : list ty)
         (ratings : list (nat * nat * nat)) (candids : list Signature),
    rate_cases tc cases args_ [] [] = Ret (ratings, candids) ->
    2 <= List.length candids ->
    let survivors := combine ratings candids in
    exists first case1 second case2 rest,
      sorted fst survivors = (first, case1) :: (second, case2) :: rest /\
      In (first, case1) survivors /\
      (forall r c, In (r, c) survivors -> tuple_le first r) /\
      tuple_le first second /\
      (forall r c, In (r, c) rest -> tuple_le second r) /\
      let tied := filter (fun rc => tuple_eqb (fst rc) first) survivors in
      (forall r c, In (r, c) tied <-> In (r, c) survivors /\ r = first) /\
      let nl := String (ascii_of_nat 10) EmptyString in
      let line (rc : nat * nat * nat * Signature) :=
        String.append (st (args (snd rc)))
                      (String.append " -> " (sy (return_type (snd rc)))) in
      (first = second ->
       2 <= List.length tied /\
       _resolve_overload tc sk st sy cases args_ [] =
       Raise (TypeError
                (String.append "Ambiguous overloading for "
                   (String.append sk
                      (String.append " "
                         (String.append (st args_)
                            (String.append nl
                               (String.concat nl (map line tied))))))))) /\
      (first <> second ->
       tied = [(first, case1)] /\
       _resolve_overload tc sk st sy cases args_ [] = Ret (Some case1)).
Proof.
  intros tc sk st sy cases args_ ratings candids H Hlen survivors.
  destruct (rate_cases_inv _ _ _ _ _ H) as (Hr & _ & Hc).
  fold survivors in Hr, Hc.
  assert (Hl : 2 <= List.length (sorted fst survivors)).
  { rewrite sorted_length. rewrite Hc, length_map in Hlen. exact Hlen. }
  destruct (sorted fst survivors) as [|[first case1] [|[second case2] rest]]
    eqn:E; simpl in Hl; try lia.
  exists first, case1, second, case2, rest.
  destruct (sorted_head _ _ _ E) as (Hin & Hle & Hle').
  assert (Hs := sorted_StronglySorted fst survivors). rewrite E in Hs.
  apply StronglySorted_inv in Hs. destruct Hs as [Hs _].
  apply StronglySorted_inv in Hs. destruct Hs as [_ Hs].
  rewrite Forall_forall in Hs.
  assert (Hf := sorted_filter_key fst first survivors). rewrite E in Hf.
  split; [reflexivity|].
  split; [exact Hin|].
  split; [intros r c Hrc; exact (Hle _ Hrc)|].
  split; [exact (Hle' (second, case2) (or_introl eq_refl))|].
  split; [intros r c Hrc; exact (Hs _ Hrc)|].
  split; [|split].
  - intros r c. rewrite filter_In. simpl. rewrite tuple_eqb_eq. tauto.
  - intros <-. rewrite <- Hf. simpl. rewrite tuple_eqb_refl. simpl.
    split; [lia|].
    rewrite resolve_rated, Hr. simpl. fold survivors. rewrite E. simpl.
    rewrite tuple_eqb_refl. unfold ambiguous_of. simpl.
    rewrite tuple_eqb_refl. reflexivity.
  - intros Hne.
    assert (Hne' : tuple_eqb first second = false).
    { apply not_true_iff_false. rewrite tuple_eqb_eq. exact Hne. }
    split.
    + rewrite <- Hf.
      change (filter (fun rc => tuple_eqb (fst rc) first)
                     ((first, case1) :: (second, case2) :: rest))
        with (if tuple_eqb first first
              then (first, case1)
                   :: filter (fun rc => tuple_eqb (fst rc) first)
                             ((second, case2) :: rest)
              else filter (fun rc => tuple_eqb (fst rc) first)
                          ((second, case2) :: rest)).
      rewrite tuple_eqb_refl.
      f_equal. apply (filter_none (fun rc => tuple_eqb (fst rc) first)).
      intros [r c] Hrc. simpl.
      apply not_true_iff_false. rewrite tuple_eqb_eq. intros ->.
      assert (Hlt : tuple_lt first second).
      { apply tuple_le_neq_lt; [|exact Hne].
        exact (Hle' (second, case2) (or_introl eq_refl)). }
      assert (Hge : tuple_le second first).
      { destruct Hrc as [Erc|Hrc];
          [injection Erc as <- _; apply tuple_le_refl|exact (Hs _ Hrc)]. }
      exact (tuple_le_lt_false _ _ Hge Hlt).
    + rewrite resolve_rated, Hr. simpl. fold survivors. rewrite E. simpl.
      now rewrite Hne'.
Qed.

Lemma ambiguity_detected_witness :
  let case1 := signature int32 [Prim int32; Prim int32] in
  let case2 := signature int64 [Prim int32; Prim int32] in
  let nl := String (ascii_of_nat 10) EmptyString in
  _resolve_overload example_compatibility "+" example_str_tuple
                    example_str_type [case1; case2]
                    [Prim int32; Prim int32] [] =
  Raise (TypeError
           (String.append "Ambiguous overloading for + (int32, int32)"
              (String.append nl
                 (String.append "(int32, int32) -> int32"
                    (String.append nl "(int32, int32) -> int64"))))).
Proof.
  intros case1 case2 nl.
  destruct (ambiguity_detected
              example_compatibility "+" example_str_tuple example_str_type
              [case1; case2] [Prim int32; Prim int32]
              [(0, 0, 0); (0, 0, 0)] [case1; case2] eq_refl (le_n 2))
    as (first & c1 & second & c2 & rest & E & _ & _ & _ & _ & _ & Hamb & _).
  injection E as <- _ <- _ _.
  exact (proj2 (Hamb eq_refl)).
Defined.

(* ------------------------------------------------------------------------- *)
(** ** The two filters *)

(** C3. A candidate whose arity differs from the number of arguments is
    rejected without a question to the oracle: for every oracle, also one
    whose answers would raise, the resolver behaves as if the candidate were
    not among the cases. A candidate with a pair the oracle calls
    incompatible gets no rating, is not among the rated candidates and is
    not returned; when the oracle's other verdicts on it are recognised ones
    the resolver again behaves as if it were not among the cases. Whatever
    the resolver returns is one of the cases, has the arity of the call and
    has no incompatible pair. *)
Theorem candidates_filtered :
  forall (tc : ty -> ty -> option string) (sk : string)
         (st : list ty -> string) (sy : ty -> string)
         (cases : list Signature) (args_ : list ty) (kws : kwargs),
    (forall l1 c l2,
        cases = l1 ++ c :: l2 ->
        List.length (args c) <> List.length args_ ->
        rate_case tc args_ c = Ret None /\
        _resolve_overload tc sk st sy cases args_ kws =
        _resolve_overload tc sk st sy (l1 ++ l2) args_ kws) /\
    (forall c,
        (exists actual formal,
            In (actual, formal) (combine args_ (args c)) /\
            tc actual formal = None) ->
        (forall rate, rate_case tc args_ c <> Ret (Some rate)) /\
        (forall ratings candids,
            rate_cases tc cases args_ [] [] = Ret (ratings, candids) ->
            ~ In c candids) /\
        _resolve_overload tc sk st sy cases args_ kws <> Ret (Some c)) /\
    (forall l1 c l2,
        cases = l1 ++ c :: l2 ->
        (exists actual formal,
            In (actual, formal) (combine args_ (args c)) /\
            tc actual formal = None) ->
        (forall actual formal by_,
            In (actual, formal) (combine args_ (args c)) ->
            tc actual formal = Some by_ -> recognised by_) ->
        rate_case tc args_ c = Ret None /\
        _resolve_overload tc sk st sy cases args_ kws =
        _resolve_overload tc sk st sy (l1 ++ l2) args_ kws) /\
    (forall c,
        _resolve_overload tc sk st sy cases args_ kws = Ret (Some c) ->
        In c cases /\
        List.length (args c) = List.length args_ /\
        forall actual formal,
          In (actual, formal) (combine args_ (args c)) ->
          tc actual formal <> None).
Proof.
  intros tc sk st sy cases args_ kws.
  assert (Hsome : forall c rate,
             rate_case tc args_ c = Ret (Some rate) ->
             List.length (args c) = List.length args_ /\
             forall actual formal,
               In (actual, formal) (combine args_ (args c)) ->
               tc actual formal <> None).
  { intros c rate Hc. destruct (rate_case_Some _ _ _ _ Hc) as [Hl Hp].
    split; [exact Hl|].
    intros actual formal Hin. destruct (Hp _ _ Hin) as (by_ & -> & _).
    discriminate. }
  split; [|split; [|split]].
  - intros l1 c l2 -> Hlen.
    assert (Hc := rate_case_arity tc _ _ Hlen).
    split; [exact Hc|]. now apply resolve_drop.
  - intros c (actual & formal & Hin & Hn).
    assert (Hno : forall rate, rate_case tc args_ c <> Ret (Some rate)).
    { intros rate Hc. exact (proj2 (Hsome _ _ Hc) _ _ Hin Hn). }
    split; [exact Hno|]. split.
    + intros ratings candids H Hc.
      destruct (rate_cases_inv _ _ _ _ _ H) as (Hr & _ & Hcs).
      rewrite Hcs in Hc. apply in_map_iff in Hc.
      destruct Hc as ([r c'] & Ec & Hc). simpl in Ec. subst c'.
      destruct (rated_In _ _ _ _ Hr _ _ Hc) as (_ & rate & Hrc & _).
      exact (Hno _ Hrc).
    + intros H. destruct (resolve_Some _ _ _ _ _ _ _ _ H) as (l & r & Hr & Hc & _).
      destruct (rated_In _ _ _ _ Hr _ _ Hc) as (_ & rate & Hrc & _).
      exact (Hno _ Hrc).
  - intros l1 c l2 -> Hn Hrec.
    assert (Hc : rate_case tc args_ c = Ret None).
    { unfold rate_case.
      destruct (List.length args_ =? List.length (args c)); [|reflexivity].
      now apply rate_args_None. }
    split; [exact Hc|]. now apply resolve_drop.
  - intros c H.
    destruct (resolve_Some _ _ _ _ _ _ _ _ H) as (l & r & Hr & Hc & _).
    destruct (rated_In _ _ _ _ Hr _ _ Hc) as (Hin & rate & Hrc & _).
    split; [exact Hin|]. exact (Hsome _ _ Hrc).
Qed.

Lemma candidates_filtered_witness :
  _resolve_overload example_compatibility "range" example_str_tuple
                    example_str_type Range_cases [Prim int32; Prim int32] [] =
  _resolve_overload example_compatibility "range" example_str_tuple
                    example_str_type (tl Range_cases)
                    [Prim int32; Prim int32] [] /\
  _resolve_overload example_compatibility "range" example_str_tuple
                    example_str_type Range_cases [Prim float64] []
  <> Ret (Some (signature range_state32_type [Prim int32])) /\
  _resolve_overload example_compatibility "range" example_str_tuple
                    example_str_type Range_cases [Prim float64] [] =
  _resolve_overload example_compatibility "range" example_str_tuple
                    example_str_type (tl Range_cases) [Prim float64] [] /\
  forall c,
    _resolve_overload example_compatibility "range" example_str_tuple
                      example_str_type Range_cases [Prim int32; Prim int32] []
    = Ret (Some c) ->
    List.length (args c) = 2.
Proof.
  destruct (candidates_filtered
              example_compatibility "range" example_str_tuple
              example_str_type Range_cases [Prim int32; Prim int32] [])
    as (Harity & _ & _ & Hret).
  destruct (candidates_filtered
              example_compatibility "range" example_str_tuple
              example_str_type Range_cases [Prim float64] [])
    as (_ & Hnone & Hdrop & _).
  assert (Hpair : exists actual formal,
             In (actual, formal) (combine [Prim float64] [Prim int32]) /\
             example_compatibility actual formal = None).
  { exists (Prim float64), (Prim int32). split; [now left|reflexivity]. }
  split; [|split; [|split]].
  - apply (Harity [] (signature range_state32_type [Prim int32])
                  (tl Range_cases) eq_refl).
    simpl. lia.
  - exact (proj2 (proj2 (Hnone (signature range_state32_type [Prim int32])
                               Hpair))).
  - apply (Hdrop [] (signature range_state32_type [Prim int32])
                 (tl Range_cases) eq_refl Hpair).
    intros actual formal by_ [E|[]] Hby. injection E as <- <-.
    discriminate Hby.
  - intros c Hc. exact (proj1 (proj2 (Hret c Hc))).
Defined.

(* ------------------------------------------------------------------------- *)
(** ** Signature: equality and hashing *)

Lemma Signature_eq_spec a b :
  Signature_eq a b = true <-> args a = args b /\ recvr a = recvr b.
Proof.
  unfold Signature_eq.
  rewrite andb_true_iff, args_eqb_eq, recvr_eqb_eq. tauto.
Qed.

Lemma set_contains_same_key hash_tuple a b :
  args a = args b -> recvr a = recvr b ->
  set_contains hash_tuple [a] b = true.
Proof.
  intros Ha Hr. unfold set_contains, Signature_hash. simpl.
  rewrite Ha, Z.eqb_refl. simpl.
  rewrite orb_false_r. apply Signature_eq_spec. now split.
Qed.

(** C4. Two signatures with the same [args] and the same [recvr] compare
    equal (and are not unequal) and have the same hash, whatever their
    return types, so a set built from both keeps one element; and neither
    side's return type has any influence on [Signature.__eq__]. *)
Theorem Signature_eq_ignores_return_type :
  forall (hash_tuple : list ty -> Z) (a b : Signature),
    args a = args b ->
    recvr a = recvr b ->
    Signature_eq a b = true /\
    Signature_ne a b = false /\
    Signature_hash hash_tuple a = Signature_hash hash_tuple b /\
    set_of hash_tuple [a; b] = [a] /\
    (forall r r' c,
        Signature_eq (mkSignature r (args a) (recvr a)) c =
        Signature_eq (mkSignature r' (args a) (recvr a)) c /\
        Signature_eq c (mkSignature r (args a) (recvr a)) =
        Signature_eq c (mkSignature r' (args a) (recvr a))).
Proof.
  intros hash_tuple a b Ha Hr.
  assert (E : Signature_eq a b = true) by (apply Signature_eq_spec; auto).
  repeat split.
  - exact E.
  - unfold Signature_ne. now rewrite E.
  - unfold Signature_hash. now rewrite Ha.
  - unfold set_of. simpl. unfold set_add at 2. simpl.
    unfold set_add. now rewrite set_contains_same_key.
Qed.

Lemma Signature_eq_ignores_return_type_witness :
  let a := signature int32 [Prim int32; Prim int32] in
  let b := signature int64 [Prim int32; Prim int32] in
  return_type a <> return_type b /\
  Signature_eq a b = true /\
  set_of (fun l => Z.of_nat (List.length l)) [a; b] = [a].
Proof.
  intros a b.
  destruct (Signature_eq_ignores_return_type
              (fun l => Z.of_nat (List.length l)) a b eq_refl eq_refl)
    as (E & _ & _ & S & _).
  split; [discriminate | split; assumption].
Defined.

(* ------------------------------------------------------------------------- *)
(** ** Index normalisation *)

Section NormalizeIndex.
Variable intp : prim.

Lemma normalize_index_UniTuple dtype count :
  normalize_index intp (UniTuple dtype count) = UniTuple intp count.
Proof. reflexivity. Qed.

Lemma normalize_index_slice2 :
  normalize_index intp slice2_type = slice2_type.
Proof. reflexivity. Qed.

Lemma normalize_index_slice3 :
  normalize_index intp slice3_type = slice3_type.
Proof. reflexivity. Qed.

Lemma normalize_index_other index :
  is_UniTuple index = false ->
  index <> slice2_type -> index <> slice3_type ->
  normalize_index intp index = intp.
Proof.
  intros Hu H2 H3.
  apply ty_eqb_neq in H2, H3.
  destruct index; simpl in *; try discriminate; now rewrite ?H2, ?H3.
Qed.

Lemma normalize_index_normal index :
  normal_index intp (normalize_index intp index).
Proof.
  destruct index; simpl; try constructor.
  destruct (ty_eqb p slice3_type); [constructor|].
  destruct (ty_eqb p slice2_type); constructor.
Qed.

Lemma normalize_index_fixes_normal index :
  normal_index intp index -> normalize_index intp index = index.
Proof.
  destruct 1; try reflexivity.
  simpl. destruct (ty_eqb intp slice3_type) eqn:E3.
  - apply ty_eqb_eq in E3. now rewrite E3.
  - destruct (ty_eqb intp slice2_type) eqn:E2; [|reflexivity].
    apply ty_eqb_eq in E2. now rewrite E2.
Qed.
End NormalizeIndex.

(** C9. [normalize_index] is idempotent; it sends [UniTuple(_, n)] to
    [UniTuple(intp, n)], each of the two slice types to itself and every
    other type to [intp]. *)
Theorem normalize_index_idempotent :
  forall (intp : prim) (idx : ty),
    normalize_index intp (normalize_index intp idx) = normalize_index intp idx /\
    (forall dtype n, idx = UniTuple dtype n ->
                     normalize_index intp idx = UniTuple intp n) /\
    (idx = slice2_type -> normalize_index intp idx = slice2_type) /\
    (idx = slice3_type -> normalize_index intp idx = slice3_type) /\
    (is_UniTuple idx = false -> idx <> slice2_type -> idx <> slice3_type ->
     normalize_index intp idx = intp).
Proof.
  intros intp idx. split; [|repeat split].
  - apply normalize_index_fixes_normal, normalize_index_normal.
  - intros dtype n ->. apply normalize_index_UniTuple.
  - intros ->. apply normalize_index_slice2.
  - intros ->. apply normalize_index_slice3.
  - apply normalize_index_other.
Qed.

Lemma normalize_index_idempotent_witness :
  normalize_index int64 (normalize_index int64 (UniTuple int32 2)) =
  normalize_index int64 (UniTuple int32 2) /\
  normalize_index int64 (UniTuple int32 2) = UniTuple int64 2 /\
  normalize_index int64 slice2_type = slice2_type /\
  normalize_index int64 slice3_type = slice3_type /\
  normalize_index int64 float32 = int64.
Proof.
  split; [apply (normalize_index_idempotent int64 (UniTuple int32 2))|].
  split; [apply (normalize_index_idempotent int64 (UniTuple int32 2)
                   : _ /\ _) with (dtype := Prim int32); reflexivity|].
  split; [apply (normalize_index_idempotent int64 slice2_type); reflexivity|].
  split; [apply (normalize_index_idempotent int64 slice3_type); reflexivity|].
  apply (normalize_index_idempotent int64 float32);
    [reflexivity | discriminate | discriminate].
Defined.

(* ------------------------------------------------------------------------- *)
(** ** The abstract templates of the catalogue *)

(** An abstract template only returns what its [generic] found. *)
Lemma AbstractTemplate_apply_Some tc sk st sy generic args_ kws sig :
  AbstractTemplate_apply tc sk st sy generic args_ kws = Ret (Some sig) ->
  generic args_ kws = Ret (Some sig).
Proof.
  unfold AbstractTemplate_apply, _select.
  destruct (generic args_ kws) as [[sig'|]|e]; simpl; try discriminate.
  intros H.
  destruct (resolve_Some _ _ _ _ _ _ _ _ H) as (l & r & Hr & Hc & _).
  destruct (rated_In _ _ _ _ Hr _ _ Hc) as ([<-|[]] & _). reflexivity.
Qed.

(** An abstract template whose [generic] finds nothing applies to nothing,
    whatever the oracle says. *)
Lemma AbstractTemplate_apply_None tc sk st sy generic args_ kws :
  generic args_ kws = Ret None ->
  AbstractTemplate_apply tc sk st sy generic args_ kws = Ret None.
Proof. unfold AbstractTemplate_apply. now intros ->. Qed.

(** What [GetItemArray.generic] does on an array and a normalised index. *)
Lemma GetItemArray_generic_UniTuple intp dtype n lay d k :
  GetItemArray_generic intp [Array dtype n lay; UniTuple d k] [] =
  if k =? n
  then Ret (Some (signature dtype [Array dtype n lay; UniTuple intp k]))
  else Ret None.
Proof.
  cbn -[Nat.ltb Nat.eqb].
  destruct (k =? n) eqn:E.
  - apply Nat.eqb_eq in E. subst k. now rewrite Nat.ltb_irrefl.
  - apply Nat.eqb_neq in E.
    destruct (k <? n) eqn:E1; [reflexivity|].
    destruct (n <? k) eqn:E2; [reflexivity|].
    apply Nat.ltb_ge in E1, E2. lia.
Qed.

(** C5. On an array of rank [n] and a [UniTuple] index of length [k], the
    array "getitem" template finds no signature when [k <> n], both in
    [generic] and in [apply], whatever the oracle says. When [k = n] its
    [generic] computes the signature that returns the array's dtype and
    whose index formal is [UniTuple(intp, n)]; applying the template yields
    that signature when the oracle gives a verdict it knows to the array
    against itself and to the index against [UniTuple(intp, n)], and yields
    no signature when the oracle calls one of the two incompatible. *)
Theorem GetItemArray_UniTuple_arity :
  forall (intp : prim) (tc : ty -> ty -> option string) (sk : string)
         (st : list ty -> string) (sy : ty -> string)
         (dtype : ty) (n : nat) (lay : layout) (d : ty) (k : nat),
    let ary := Array dtype n lay in
    let idx := UniTuple d k in
    let sig := signature dtype [ary; UniTuple intp n] in
    (k <> n ->
     GetItemArray_generic intp [ary; idx] [] = Ret None /\
     GetItemArray_apply intp tc sk st sy [ary; idx] [] = Ret None) /\
    (k = n ->
     GetItemArray_generic intp [ary; idx] [] = Ret (Some sig) /\
     normalize_index intp idx = UniTuple intp n /\
     (forall by1 by2,
         tc ary ary = Some by1 -> recognised by1 ->
         tc idx (UniTuple intp n) = Some by2 -> recognised by2 ->
         GetItemArray_apply intp tc sk st sy [ary; idx] [] = Ret (Some sig)) /\
     (tc ary ary = None ->
      GetItemArray_apply intp tc sk st sy [ary; idx] [] = Ret None) /\
     (forall by1,
         tc ary ary = Some by1 -> recognised by1 ->
         tc idx (UniTuple intp n) = None ->
         GetItemArray_apply intp tc sk st sy [ary; idx] [] = Ret None) /\
     (forall sig',
         GetItemArray_apply intp tc sk st sy [ary; idx] [] = Ret (Some sig') ->
         sig' = sig)).
Proof.
  intros intp tc sk st sy dtype n lay d k ary idx sig. split.
  - intros Hk.
    assert (G : GetItemArray_generic intp [ary; idx] [] = Ret None).
    { unfold ary, idx. rewrite GetItemArray_generic_UniTuple.
      apply Nat.eqb_neq in Hk. now rewrite Hk. }
    split; [exact G|].
    now apply AbstractTemplate_apply_None.
  - intros Hk. subst k.
    assert (G : GetItemArray_generic intp [ary; idx] [] = Ret (Some sig)).
    { unfold ary, idx, sig. rewrite GetItemArray_generic_UniTuple.
      now rewrite Nat.eqb_refl. }
    assert (A : GetItemArray_apply intp tc sk st sy [ary; idx] [] =
                (r <- rate_case tc [ary; idx] sig ;;
                 Ret (match r with Some _ => Some sig | None => None end))).
    { unfold GetItemArray_apply, AbstractTemplate_apply, _select.
      rewrite G. cbn [bind]. rewrite resolve_rated. cbn [rated].
      destruct (rate_case tc [ary; idx] sig) as [[rate|]|e]; reflexivity. }
    split; [exact G|]. split; [reflexivity|].
    split; [|split; [|split]].
    + intros by1 by2 H1 R1 H2 R2. rewrite A.
      unfold rate_case. subst sig ary idx. simpl. rewrite H1.
      destruct R1 as [->|[->|[->| ->]]]; simpl; rewrite H2;
        destruct R2 as [->|[->|[->| ->]]]; reflexivity.
    + intros H1. rewrite A.
      unfold rate_case. subst sig ary idx. simpl. now rewrite H1.
    + intros by1 H1 R1 H2. rewrite A.
      unfold rate_case. subst sig ary idx. simpl. rewrite H1.
      destruct R1 as [->|[->|[->| ->]]]; simpl; now rewrite H2.
    + intros sig' H. apply AbstractTemplate_apply_Some in H. congruence.
Qed.

Lemma GetItemArray_UniTuple_arity_witness :
  GetItemArray_apply int64 example_compatibility "getitem" example_str_tuple
                     example_str_type
                     [Array float32 2 C; UniTuple int64 3] [] = Ret None /\
  GetItemArray_apply int64 example_compatibility "getitem" example_str_tuple
                     example_str_type
                     [Array float32 2 C; UniTuple int64 2] []
  = Ret (Some (signature float32 [Array float32 2 C; UniTuple int64 2])).
Proof.
  split.
  - destruct (GetItemArray_UniTuple_arity
                int64 example_compatibility "getitem" example_str_tuple
                example_str_type float32 2 C int64 3) as [H _].
    apply H. discriminate.
  - destruct (GetItemArray_UniTuple_arity
                int64 example_compatibility "getitem" example_str_tuple
                example_str_type float32 2 C int64 2) as [_ H].
    destruct (H eq_refl) as (_ & _ & Happly & _).
    apply (Happly "exact" "exact"); try reflexivity;
      unfold recognised; auto.
Defined.

(** The claim does not hold of [apply] without a condition on the oracle:
    the index has the length of the rank, and the template still yields no
    signature, because the oracle does not accept a tuple of [int32] for the
    formal [UniTuple(intp, 2)]. *)
Lemma GetItemArray_UniTuple_arity_counterexample :
  GetItemArray_generic int64 [Array float32 2 C; UniTuple int32 2] []
  = Ret (Some (signature float32 [Array float32 2 C; UniTuple int64 2])) /\
  GetItemArray_apply int64 example_compatibility "getitem" example_str_tuple
                     example_str_type
                     [Array float32 2 C; UniTuple int32 2] [] = Ret None /\
  ~ (exists sig,
        GetItemArray_apply int64 example_compatibility "getitem"
                           example_str_tuple example_str_type
                           [Array float32 2 C; UniTuple int32 2] []
        = Ret (Some sig)).
Proof.
  split; [reflexivity|]. split; [reflexivity|].
  intros [sig H]. discriminate H.
Qed.

(** C10. [GetItemArray.generic] never raises its "unreachable" exception:
    the normalised index is [UniTuple(intp, n)], a slice type or [intp], and
    each has a branch before the last one; on an array operand and an index,
    without keyword arguments, it returns a signature or nothing. *)
Theorem GetItemArray_generic_reachable :
  forall (intp : prim) (args_ : list ty) (kws : kwargs),
    (forall by_, GetItemArray_generic intp args_ kws
                 <> Raise (Exception_unreachable by_)) /\
    (forall dtype ndim lay idx,
        normal_index intp (normalize_index intp idx) /\
        exists r, GetItemArray_generic intp [Array dtype ndim lay; idx] []
                  = Ret r).
Proof.
  intros intp args_ kws. split.
  - intros by_. unfold GetItemArray_generic.
    destruct kws; simpl; [|discriminate].
    destruct args_ as [|ary [|idx [|? ?]]]; try discriminate.
    destruct ary; try discriminate.
    destruct (normalize_index_normal intp idx); simpl.
    + destruct (count <? ndim); [discriminate|].
      destruct (ndim <? count); discriminate.
    + discriminate.
    + discriminate.
    + destruct (ty_eqb intp slice2_type || ty_eqb intp slice3_type);
        [discriminate|].
      rewrite ty_eqb_refl. destruct (negb (ndim =? 1)); discriminate.
  - intros dtype ndim lay idx. split; [apply normalize_index_normal|].
    unfold GetItemArray_generic. simpl.
    destruct (normalize_index_normal intp idx); simpl.
    + destruct (count <? ndim); [eauto|].
      destruct (ndim <? count); eauto.
    + eauto.
    + eauto.
    + destruct (ty_eqb intp slice2_type || ty_eqb intp slice3_type);
        [eauto|].
      rewrite ty_eqb_refl. destruct (negb (ndim =? 1)); eauto.
Qed.

(** C6. On three arrays, [Numpy_binary_ufunc.generic] finds no signature
    exactly when the dtype of [vx] differs from the dtype of [wy] and from
    the dtype of [out]; in every other case it gives
    [signature(out, vx, wy, out)]. *)
Theorem Numpy_binary_ufunc_guard :
  forall (dvx dwy dout : ty) (nx ny nout : nat) (lx ly lout : layout),
    let vx := Array dvx nx lx in
    let wy := Array dwy ny ly in
    let out := Array dout nout lout in
    (Numpy_binary_ufunc_generic [vx; wy; out] [] = Ret None <->
     dvx <> dwy /\ dvx <> dout) /\
    (~ (dvx <> dwy /\ dvx <> dout) ->
     Numpy_binary_ufunc_generic [vx; wy; out] []
     = Ret (Some (signature out [vx; wy; out]))) /\
    (dvx = dout -> dvx <> dwy ->
     Numpy_binary_ufunc_generic [vx; wy; out] []
     = Ret (Some (signature out [vx; wy; out]))).
Proof.
  intros dvx dwy dout nx ny nout lx ly lout vx wy out.
  unfold Numpy_binary_ufunc_generic, vx, wy, out, ty_eqb. simpl.
  destruct (ty_eq_dec dvx dwy), (ty_eq_dec dvx dout); simpl;
    (split; [split; [try discriminate; tauto | tauto] | split; tauto]).
Qed.

Lemma Numpy_binary_ufunc_guard_witness :
  Numpy_binary_ufunc_generic
    [Array float32 1 C; Array float64 1 C; Array float32 1 C] []
  = Ret (Some (signature (Array float32 1 C)
                 [Array float32 1 C; Array float64 1 C; Array float32 1 C])) /\
  Numpy_binary_ufunc_generic
    [Array float32 1 C; Array float64 1 C; Array int32 1 C] []
  = Ret None.
Proof.
  split.
  - apply (Numpy_binary_ufunc_guard float32 float64 float32 1 1 1 C C C);
      [reflexivity | discriminate].
  - apply (Numpy_binary_ufunc_guard float32 float64 int32 1 1 1 C C C).
    split; discriminate.
Defined.

(** What [Array_flatten.generic] finds for an array receiver. *)
Lemma Array_flatten_generic_Array dtype ndim lay :
  Array_flatten_generic (Array dtype ndim lay) [] [] =
  match lay with
  | C => Ret (Some (signature_recvr (Array dtype 1 C) []
                                    (Array dtype ndim C)))
  | _ => Ret None
  end.
Proof. now destruct lay. Qed.

(** C8. The "flatten" attribute of an array resolves to
    [Method(Array_flatten, ary)]; applied to no arguments, the template bound
    to [ary] gives a signature exactly when the layout of [ary] is 'C', and
    that signature returns [Array(dtype, 1, 'C')], takes no argument and has
    [ary] as its receiver; for the other layouts it gives no signature. *)
Theorem Array_flatten_layout :
  forall (intp : prim) (tc : ty -> ty -> option string) (sk : string)
         (st : list ty -> string) (sy : ty -> string)
         (dtype : ty) (ndim : nat) (lay : layout),
    let ary := Array dtype ndim lay in
    ArrayAttribute_resolve intp ary "flatten" = Ret (Method Array_flatten ary) /\
    Method_apply tc sk st sy (Method Array_flatten ary) [] [] =
    Array_flatten_generic ary [] [] /\
    (forall sig,
        Method_apply tc sk st sy (Method Array_flatten ary) [] []
        = Ret (Some sig) <->
        lay = C /\ sig = mkSignature (Array dtype 1 C) [] (Some ary)) /\
    (lay <> C ->
     Method_apply tc sk st sy (Method Array_flatten ary) [] [] = Ret None).
Proof.
  intros intp tc sk st sy dtype ndim lay ary. subst ary.
  split; [reflexivity|].
  split; [now destruct lay|].
  split.
  - intros sig. destruct lay; cbn; split;
      try (intros [E _]; discriminate E); try discriminate.
    + intros E. injection E as <-. now split.
    + intros [_ ->]. reflexivity.
  - intros Hl. destruct lay; [congruence | reflexivity | reflexivity].
Qed.

Lemma Array_flatten_layout_witness :
  Method_apply example_compatibility "array.flatten" example_str_tuple
               example_str_type
               (Method Array_flatten (Array int32 3 F)) [] [] = Ret None /\
  Method_apply example_compatibility "array.flatten" example_str_tuple
               example_str_type
               (Method Array_flatten (Array int32 3 C)) [] []
  = Ret (Some (mkSignature (Array int32 1 C) [] (Some (Array int32 3 C)))).
Proof.
  split.
  - apply (Array_flatten_layout int64 example_compatibility "array.flatten"
             example_str_tuple example_str_type int32 3 F).
    discriminate.
  - apply (Array_flatten_layout int64 example_compatibility "array.flatten"
             example_str_tuple example_str_type int32 3 C).
    split; reflexivity.
Defined.

(* ------------------------------------------------------------------------- *)
(** ** The concrete template [Range] *)

(** C7. The cases of [Range] are exactly the one- and three-argument
    signatures over [int32] returning [range_state32_type] and the one-, two-
    and three-argument signatures over [int64] returning
    [range_state64_type]: five cases, none of which takes two [int32]
    arguments. *)
Theorem Range_cases_exact :
  (forall sig,
      In sig Range_cases <->
      (exists n, (n = 1 \/ n = 3) /\
                 sig = signature range_state32_type (repeat (Prim int32) n)) \/
      (exists n, (n = 1 \/ n = 2 \/ n = 3) /\
                 sig = signature range_state64_type (repeat (Prim int64) n))) /\
  NoDup Range_cases /\
  List.length Range_cases = 5 /\
  (forall sig, In sig Range_cases -> args sig <> [Prim int32; Prim int32]) /\
  (forall r, existsb (Signature_eq (signature r [Prim int32; Prim int32]))
                     Range_cases = false).
Proof.
  split; [|split; [|split; [|split]]].
  - intros sig. split.
    + simpl. intros [<-|[<-|[<-|[<-|[<-|[]]]]]].
      * left. exists 1. auto.
      * left. exists 3. auto.
      * right. exists 1. auto.
      * right. exists 2. auto.
      * right. exists 3. auto.
    + intros [(n & Hn & ->)|(n & Hn & ->)].
      * destruct Hn as [->| ->]; simpl; auto.
      * destruct Hn as [->|[->| ->]]; simpl; auto 6.
  - repeat constructor; simpl; intuition discriminate.
  - reflexivity.
  - simpl. intros sig [<-|[<-|[<-|[<-|[<-|[]]]]]]; discriminate.
  - intros r. reflexivity.
Qed.

(* ------------------------------------------------------------------------- *)
(** ** Scenarios *)

(** "getitem" on a C array of rank 2 with a pair of [int64] indices. *)
Example getitem_array_tuple :
  GetItemArray_apply int64 example_compatibility "getitem" example_str_tuple
                     example_str_type
                     [Array float32 2 C; UniTuple int64 2] [] =
  Ret (Some (signature float32 [Array float32 2 C; UniTuple int64 2])).
Proof. reflexivity. Qed.

(** "getitem" on the same array with a two-field slice. *)
Example getitem_array_slice :
  GetItemArray_apply int64 example_compatibility "getitem" example_str_tuple
                     example_str_type
                     [Array float32 2 C; Prim slice2_type] [] =
  Ret (Some (signature (Array float32 2 A)
                       [Array float32 2 C; Prim slice2_type])).
Proof. reflexivity. Qed.

(** [range] of two [int32] arguments: only the 64-bit case has two
    formals, and both arguments are promoted. *)
Example range_two_int32 :
  ConcreteTemplate_apply example_compatibility "range" example_str_tuple
                         example_str_type Range_cases
                         [Prim int32; Prim int32] [] =
  Ret (Some (signature range_state64_type [Prim int64; Prim int64])).
Proof. reflexivity. Qed.

(* ------------------------------------------------------------------------- *)
(** ** Downcasts *)

Lemma _sum_downcast_from_shift dists : forall c,
  _sum_downcast_from c dists = (c + _sum_downcast dists)%Z.
Proof.
  unfold _sum_downcast.
  induction dists as [|d dists IH]; intros c; simpl; [lia|].
  rewrite IH, (IH (if (d <? 0)%Z then _ else _)).
  destruct (d <? 0)%Z; lia.
Qed.

Lemma _sum_downcast_cons d dists :
  _sum_downcast (d :: dists) =
  ((if (d <? 0)%Z then Z.abs d else 0) + _sum_downcast dists)%Z.
Proof.
  unfold _sum_downcast at 1. simpl. rewrite _sum_downcast_from_shift.
  destruct (d <? 0)%Z; lia.
Qed.

Lemma _sum_downcast_nonneg dists : (0 <= _sum_downcast dists)%Z.
Proof.
  induction dists as [|d dists IH]; [reflexivity|].
  rewrite _sum_downcast_cons. destruct (d <? 0)%Z; lia.
Qed.

(** X1. The sum of the downcasts is never negative, and it is zero exactly when
    no distance is a downcast, that is when no distance is negative. *)
Theorem sum_downcast_zero_iff :
  forall dists : list Z,
    (0 <= _sum_downcast dists)%Z /\
    (_uses_downcast dists = true <-> exists d, In d dists /\ (d < 0)%Z) /\
    (_sum_downcast dists = 0%Z <-> _uses_downcast dists = false).
Proof.
  intros dists. split; [apply _sum_downcast_nonneg|]. split.
  - induction dists as [|d dists IH]; simpl.
    + split; [discriminate|intros (d & [] & _)].
    + destruct (d <? 0)%Z eqn:E.
      * apply Z.ltb_lt in E. split; [eauto|reflexivity].
      * apply Z.ltb_ge in E. rewrite IH. split.
        -- intros (d' & Hin & Hd). eauto.
        -- intros (d' & [<-|Hin] & Hd); [lia|eauto].
  - induction dists as [|d dists IH]; [now split|].
    rewrite _sum_downcast_cons. simpl.
    assert (Hn := _sum_downcast_nonneg dists).
    destruct (d <? 0)%Z eqn:E.
    + apply Z.ltb_lt in E. split; [lia|discriminate].
    + rewrite <- IH. split; lia.
Qed.

(** X2. Both functions go through a concatenation part by part, and the sum is
    the sum of the absolute values of the negative distances. *)
Theorem downcast_app :
  forall l1 l2 : list Z,
    _uses_downcast (l1 ++ l2) = _uses_downcast l1 || _uses_downcast l2 /\
    _sum_downcast (l1 ++ l2) = (_sum_downcast l1 + _sum_downcast l2)%Z /\
    _sum_downcast l1 =
    fold_right Z.add 0%Z (map Z.abs (filter (fun d => (d <? 0)%Z) l1)).
Proof.
  intros l1 l2. split; [|split].
  - induction l1 as [|d l1 IH]; simpl; [reflexivity|].
    destruct (d <? 0)%Z; [reflexivity|exact IH].
  - induction l1 as [|d l1 IH]; [reflexivity|].
    simpl app. rewrite !_sum_downcast_cons, IH. lia.
  - induction l1 as [|d l1 IH]; [reflexivity|].
    rewrite _sum_downcast_cons. simpl. destruct (d <? 0)%Z; simpl; lia.
Qed.

(* ------------------------------------------------------------------------- *)
(** ** What a rating counts *)

Section RatingFacts.
Variable tc : ty -> ty -> option string.

Lemma verdict_count_cons verdict actual formal pairs :
  verdict_count tc verdict ((actual, formal) :: pairs) =
  (match tc actual formal with
   | Some by_ => if String.eqb by_ verdict then 1 else 0
   | None => 0
   end) + verdict_count tc verdict pairs.
Proof.
  unfold verdict_count. simpl.
  destruct (tc actual formal) as [by_|]; [|reflexivity].
  now destruct (String.eqb by_ verdict).
Qed.

Lemma rate_args_counts pairs : forall rate rate',
  rate_args tc rate pairs = Ret (Some rate') ->
  promote rate' = promote rate + verdict_count tc "promote" pairs /\
  safe_convert rate' = safe_convert rate + verdict_count tc "safe" pairs /\
  unsafe_convert rate' =
  unsafe_convert rate + verdict_count tc "unsafe" pairs /\
  List.length pairs =
  verdict_count tc "promote" pairs + verdict_count tc "safe" pairs +
  verdict_count tc "unsafe" pairs + verdict_count tc "exact" pairs.
Proof.
  induction pairs as [|[a f] pairs IH]; intros rate rate' H.
  - injection H as <-. unfold verdict_count. simpl. lia.
  - rewrite !verdict_count_cons. simpl in H.
    destruct (tc a f) as [by_|]; [|discriminate].
    destruct (String.eqb by_ "promote") eqn:E1.
    { apply String.eqb_eq in E1. subst by_.
      destruct (IH _ _ H) as (-> & -> & -> & Hn). simpl in *. lia. }
    destruct (String.eqb by_ "safe") eqn:E2.
    { apply String.eqb_eq in E2. subst by_.
      destruct (IH _ _ H) as (-> & -> & -> & Hn). simpl in *. lia. }
    destruct (String.eqb by_ "unsafe") eqn:E3.
    { apply String.eqb_eq in E3. subst by_.
      destruct (IH _ _ H) as (-> & -> & -> & Hn). simpl in *. lia. }
    destruct (String.eqb by_ "exact") eqn:E4; [|discriminate].
    destruct (IH _ _ H) as (-> & -> & -> & Hn). simpl in *. lia.
Qed.

Lemma rating_counts_verdicts_aux args_ case rate :
  rate_case tc args_ case = Ret (Some rate) ->
  promote rate = verdict_count tc "promote" (combine args_ (args case)) /\
  safe_convert rate = verdict_count tc "safe" (combine args_ (args case)) /\
  unsafe_convert rate =
  verdict_count tc "unsafe" (combine args_ (args case)) /\
  promote rate + safe_convert rate + unsafe_convert rate +
  verdict_count tc "exact" (combine args_ (args case)) = List.length args_.
Proof.
  intros H.
  assert (Hl : List.length (combine args_ (args case)) = List.length args_).
  { destruct (rate_case_Some _ _ _ _ H) as [Hl _].
    rewrite length_combine. lia. }
  unfold rate_case in H.
  destruct (List.length args_ =? List.length (args case)); [|discriminate].
  destruct (rate_args_counts _ _ _ H) as (Hp & Hs & Hu & Hn).
  simpl in Hp, Hs, Hu. lia.
Qed.

(** X3. The rating of a rated candidate counts, verdict by verdict, the pairs
    of actual and formal types the oracle gave that verdict; the three
    counters and the exact matches add up to the number of arguments. *)
Theorem rating_counts_verdicts :
  forall (args_ : list ty) (case : Signature) (rate : Rating),
    rate_case tc args_ case = Ret (Some rate) ->
    let pairs := combine args_ (args case) in
    promote rate = verdict_count tc "promote" pairs /\
    safe_convert rate = verdict_count tc "safe" pairs /\
    unsafe_convert rate = verdict_count tc "unsafe" pairs /\
    promote rate + safe_convert rate + unsafe_convert rate +
    verdict_count tc "exact" pairs = List.length args_.
Proof.
  intros args_ case rate H pairs.
  exact (rating_counts_verdicts_aux args_ case rate H).
Qed.
End RatingFacts.

Lemma rating_counts_verdicts_witness :
  let case := signature int64 [Prim int64; Prim int64] in
  let pairs := combine [Prim int32; Prim int64] (args case) in
  rate_case example_compatibility [Prim int32; Prim int64] case
  = Ret (Some (mkRating 1 0 0)) /\
  1 + 0 + 0 + verdict_count example_compatibility "exact" pairs = 2.
Proof.
  intros case pairs. split; [reflexivity|].
  exact (proj2 (proj2 (proj2 (rating_counts_verdicts
                                example_compatibility
                                [Prim int32; Prim int64] case
                                (mkRating 1 0 0) eq_refl)))).
Defined.

(* ------------------------------------------------------------------------- *)
(** ** What the resolver returns *)

Lemma tuple_le_antisym x y : tuple_le x y -> tuple_le y x -> x = y.
Proof.
  rewrite !tuple_le_iff. intros [H|H] [H'|H']; auto.
  destruct (tuple_lt_irrefl _ (tuple_lt_trans _ _ _ H H')).
Qed.

Lemma tuple_le_zero x : tuple_le (0, 0, 0) x.
Proof.
  destruct x as [[u s] p]. unfold tuple_le, tuple_ltb.
  destruct (u <? 0) eqn:E; [apply Nat.ltb_lt in E; lia|].
  destruct (u =? 0); [|reflexivity].
  destruct (s <? 0) eqn:E'; [apply Nat.ltb_lt in E'; lia|].
  destruct (s =? 0); [|reflexivity].
  apply Nat.ltb_ge. lia.
Qed.

Lemma tuple_eqb_sym x y : tuple_eqb x y = tuple_eqb y x.
Proof.
  destruct (tuple_eqb x y) eqn:E, (tuple_eqb y x) eqn:E'; auto;
    [apply tuple_eqb_eq in E|apply tuple_eqb_eq in E']; subst;
    rewrite tuple_eqb_refl in *; discriminate.
Qed.

Lemma filter_cons_eq {X} (f : X -> bool) x l :
  filter f (x :: l) = if f x then x :: filter f l else filter f l.
Proof. reflexivity. Qed.

Lemma filter_Permutation {X} (f : X -> bool) l l' :
  Permutation l l' -> Permutation (filter f l) (filter f l').
Proof.
  induction 1 as [|x l l' _ IH|x y l|l l' l'' _ IH _ IH']; simpl.
  - constructor.
  - destruct (f x); [now constructor|assumption].
  - destruct (f x), (f y); try reflexivity. apply perm_swap.
  - now transitivity (filter f l').
Qed.

Section BestCase.
Variable sk : string.
Variable st : list ty -> string.
Variable sy : ty -> string.
Variable args_ : list ty.

(** The head of the sorted survivors carries the least rating. *)
Lemma sorted_head_min (l : list (nat * nat * nat * Signature)) r x rest :
  (exists c, In (r, c) l) ->
  (forall y, In y l -> tuple_le r (fst y)) ->
  sorted fst l = x :: rest ->
  fst x = r.
Proof.
  intros (c & Hc) Hmin E.
  destruct (sorted_head _ _ _ E) as (Hx & Hle & _).
  apply tuple_le_antisym; [exact (Hle _ Hc)|exact (Hmin _ Hx)].
Qed.

Lemma best_case_unique_min l r c :
  filter (fun rc => tuple_eqb (fst rc) r) l = [(r, c)] ->
  (forall y, In y l -> tuple_le r (fst y)) ->
  best_case sk st sy args_ (sorted fst l) = Ret (Some c).
Proof.
  intros Hf Hmin.
  assert (Hc : In (r, c) l).
  { assert (H : In (r, c) (filter (fun rc => tuple_eqb (fst rc) r) l))
      by (rewrite Hf; now left).
    apply filter_In in H. tauto. }
  assert (Hs := sorted_filter_key fst r l). rewrite Hf in Hs.
  destruct (sorted fst l) as [|x rest] eqn:E; [discriminate|].
  assert (Hx : fst x = r) by (eapply sorted_head_min; eauto).
  rewrite filter_cons_eq, Hx, tuple_eqb_refl in Hs.
  injection Hs as -> Hrest.
  destruct rest as [|[second case2] rest]; [reflexivity|].
  rewrite filter_cons_eq in Hrest. simpl in *.
  rewrite tuple_eqb_sym.
  destruct (tuple_eqb second r); [discriminate|reflexivity].
Qed.

Lemma best_case_tie l r :
  2 <= List.length (filter (fun rc => tuple_eqb (fst rc) r) l) ->
  (forall y, In y l -> tuple_le r (fst y)) ->
  best_case sk st sy args_ (sorted fst l) =
  Raise (TypeError
           (ambiguous_msg sk st args_
              (map (fun rc => Signature_repr st sy (snd rc))
                   (filter (fun rc => tuple_eqb (fst rc) r) l)))).
Proof.
  intros Hlen Hmin.
  assert (Hs := sorted_filter_key fst r l).
  assert (Hc : exists c, In (r, c) l).
  { destruct (filter (fun rc => tuple_eqb (fst rc) r) l) as [|[r' c] t] eqn:Hf;
      [simpl in Hlen; lia|].
    assert (H : In (r', c) (filter (fun rc => tuple_eqb (fst rc) r) l))
      by (rewrite Hf; now left).
    apply filter_In in H. destruct H as [H E]. simpl in E.
    apply tuple_eqb_eq in E. subst r'. eauto. }
  assert (Hss := sorted_StronglySorted fst l).
  destruct (sorted fst l) as [|[first case1] rest] eqn:E.
  { rewrite <- Hs in Hlen. simpl in Hlen. lia. }
  assert (Hx : first = r)
    by (exact (sorted_head_min l r (first, case1) rest Hc Hmin E)).
  subst first.
  rewrite <- Hs in Hlen |- *.
  rewrite filter_cons_eq in Hlen. simpl fst in Hlen.
  rewrite tuple_eqb_refl in Hlen.
  destruct rest as [|[second case2] rest].
  { simpl in Hlen. lia. }
  assert (Hsec : second = r).
  { apply StronglySorted_inv in Hss. destruct Hss as [Hss Hfirst].
    apply StronglySorted_inv in Hss. destruct Hss as [_ Hrest].
    rewrite Forall_forall in Hfirst, Hrest.
    destruct (filter (fun rc => tuple_eqb (fst rc) r)
                     ((second, case2) :: rest)) as [|z t] eqn:Hf;
      [simpl in Hlen; lia|].
    assert (Hz : In z (filter (fun rc => tuple_eqb (fst rc) r)
                               ((second, case2) :: rest)))
      by (rewrite Hf; now left).
    apply filter_In in Hz. destruct Hz as [Hz Ez].
    apply tuple_eqb_eq in Ez.
    apply tuple_le_antisym.
    - destruct Hz as [<-|Hz]; [rewrite <- Ez; apply tuple_le_refl|].
      rewrite <- Ez. exact (Hrest _ Hz).
    - exact (Hfirst (second, case2) (or_introl eq_refl)). }
  subst second. unfold best_case. rewrite tuple_eqb_refl. reflexivity.
Qed.

Lemma best_case_Some_inv l c :
  best_case sk st sy args_ (sorted fst l) = Ret (Some c) ->
  exists r,
    filter (fun rc => tuple_eqb (fst rc) r) l = [(r, c)] /\
    forall y, In y l -> tuple_le r (fst y).
Proof.
  intros H.
  assert (Hss := sorted_StronglySorted fst l).
  destruct (sorted fst l) as [|[first case1] rest] eqn:E; [discriminate|].
  destruct (sorted_head _ _ _ E) as (Hx & Hle & Hle').
  assert (Hs := sorted_filter_key fst first l). rewrite E in Hs.
  exists first.
  assert (Hc : case1 = c /\
               forall y, In y rest -> tuple_eqb (fst y) first = false).
  { destruct rest as [|[second case2] rest].
    - simpl in H. injection H as <-. split; [reflexivity|intros _ []].
    - simpl in H. destruct (tuple_eqb first second) eqn:Ene; [discriminate|].
      injection H as <-. split; [reflexivity|].
      intros y Hy. apply not_true_iff_false. rewrite tuple_eqb_eq. intros Ey.
      apply StronglySorted_inv in Hss. destruct Hss as [Hss _].
      apply StronglySorted_inv in Hss. destruct Hss as [_ Hrest].
      rewrite Forall_forall in Hrest.
      assert (Hge : tuple_le second first).
      { destruct Hy as [<-|Hy]; [simpl in Ey; subst; apply tuple_le_refl|].
        rewrite <- Ey. exact (Hrest _ Hy). }
      assert (Hle2 := Hle' (second, case2) (or_introl eq_refl)).
      simpl in Hle2. rewrite (tuple_le_antisym _ _ Hle2 Hge) in Ene.
      rewrite tuple_eqb_refl in Ene. discriminate. }
  destruct Hc as [<- Hrest].
  split; [|exact Hle].
  rewrite <- Hs, filter_cons_eq. simpl fst. rewrite tuple_eqb_refl.
  f_equal. now apply filter_none.
Qed.

Lemma best_case_None_iff (l : list (nat * nat * nat * Signature)) :
  best_case sk st sy args_ (sorted fst l) = Ret None <-> l = [].
Proof.
  split; [|now intros ->].
  intros H. assert (Hl := sorted_length fst l).
  destruct (sorted fst l) as [|[first case1] [|[second case2] rest]];
    simpl in H.
  - destruct l; [reflexivity|discriminate].
  - discriminate.
  - destruct (tuple_eqb first second); discriminate.
Qed.
End BestCase.

Section ResolverResults.
Variable tc : ty -> ty -> option string.
Variable sk : string.
Variable st : list ty -> string.
Variable sy : ty -> string.

(** X4. The resolver returns nothing exactly when no candidate was rated, and
    a candidate that is the only one rated is returned whatever its
    rating. *)
Theorem resolve_few_survivors :
  forall (cases : list Signature) (args_ : list ty)
         (l : list (nat * nat * nat * Signature)),
    rated tc cases args_ = Ret l ->
    (_resolve_overload tc sk st sy cases args_ [] = Ret None <-> l = []) /\
    (forall r c, l = [(r, c)] ->
                 _resolve_overload tc sk st sy cases args_ [] = Ret (Some c)).
Proof.
  intros cases args_ l H. rewrite resolve_rated, H. simpl. split.
  - apply best_case_None_iff.
  - intros r c ->. reflexivity.
Qed.

(** X5. When no case has as many formals as the call has arguments, the
    resolver returns nothing, whatever the oracle would answer. *)
Theorem resolve_no_arity :
  forall (cases : list Signature) (args_ : list ty),
    (forall c, In c cases -> List.length (args c) <> List.length args_) ->
    _resolve_overload tc sk st sy cases args_ [] = Ret None.
Proof.
  intros cases args_ H.
  assert (Hr : rated tc cases args_ = Ret []).
  { induction cases as [|c cases IH]; [reflexivity|].
    simpl. rewrite (rate_case_arity tc _ _ (H c (or_introl eq_refl))).
    simpl. rewrite IH; [reflexivity|].
    intros c' Hc'. apply H. now right. }
  now rewrite resolve_rated, Hr.
Qed.
End ResolverResults.

Lemma resolve_few_survivors_witness :
  _resolve_overload example_compatibility "range" example_str_tuple
                    example_str_type Range_cases [Prim int64; Prim int32] []
  = Ret (Some (signature range_state64_type [Prim int64; Prim int64])).
Proof.
  apply (proj2 (resolve_few_survivors
                  example_compatibility "range" example_str_tuple
                  example_str_type Range_cases [Prim int64; Prim int32]
                  [((0, 0, 1),
                    signature range_state64_type [Prim int64; Prim int64])]
                  eq_refl) (0, 0, 1)).
  reflexivity.
Defined.

Lemma resolve_no_arity_witness :
  _resolve_overload example_compatibility "range" example_str_tuple
                    example_str_type Range_cases [] [] = Ret None.
Proof.
  apply resolve_no_arity.
  intros c [<-|[<-|[<-|[<-|[<-|[]]]]]]; discriminate.
Defined.

(* ------------------------------------------------------------------------- *)
(** ** Exact matches, the order of the cases and keyword arguments *)

Section ResolverOrder.
Variable tc : ty -> ty -> option string.
Variable sk : string.
Variable st : list ty -> string.
Variable sy : ty -> string.

Lemma verdict_count_zero verdict pairs :
  verdict_count tc verdict pairs = 0 <->
  forall actual formal,
    In (actual, formal) pairs -> tc actual formal <> Some verdict.
Proof.
  induction pairs as [|[a f] pairs IH].
  - split; [intros _ ? ? []|reflexivity].
  - rewrite verdict_count_cons. split.
    + intros H actual formal [E|Hin].
      * injection E as <- <-. intros Ev. rewrite Ev, String.eqb_refl in H.
        discriminate.
      * apply IH; [|assumption].
        destruct (tc a f) as [by_|]; [destruct (String.eqb by_ verdict)|];
          simpl in H; lia.
    + intros H.
      assert (Hp : verdict_count tc verdict pairs = 0).
      { apply IH. intros ? ? ?. apply H. now right. }
      rewrite Hp.
      destruct (tc a f) as [by_|] eqn:Ev; [|reflexivity].
      destruct (String.eqb by_ verdict) eqn:E; [|reflexivity].
      apply String.eqb_eq in E. subst by_.
      destruct (H a f (or_introl eq_refl) Ev).
Qed.

(** A rated candidate has the rating [(0, 0, 0)] exactly when the oracle
    calls every pair exact. *)
Lemma rate_case_zero_iff args_ case rate :
  rate_case tc args_ case = Ret (Some rate) ->
  astuple rate = (0, 0, 0) <->
  forall actual formal,
    In (actual, formal) (combine args_ (args case)) ->
    tc actual formal = Some "exact".
Proof.
  intros H.
  destruct (rating_counts_verdicts_aux tc _ _ _ H) as (Hp & Hs & Hu & _).
  destruct (rate_case_Some _ _ _ _ H) as [_ Hrec].
  unfold astuple. rewrite Hp, Hs, Hu. split.
  - intros E. injection E as Eu Es Ep.
    intros actual formal Hin.
    destruct (Hrec _ _ Hin) as (by_ & Hby & [->|[->|[->| ->]]]).
    + destruct (proj1 (verdict_count_zero _ _) Ep _ _ Hin Hby).
    + destruct (proj1 (verdict_count_zero _ _) Es _ _ Hin Hby).
    + destruct (proj1 (verdict_count_zero _ _) Eu _ _ Hin Hby).
    + exact Hby.
  - intros Hex.
    assert (Hz : forall verdict,
               verdict <> "exact" ->
               verdict_count tc verdict (combine args_ (args case)) = 0).
    { intros verdict Hv. apply verdict_count_zero.
      intros actual formal Hin E. rewrite (Hex _ _ Hin) in E.
      injection E as E. congruence. }
    rewrite !Hz by discriminate. reflexivity.
Qed.

(** X6. Exact-match optimality: among the rated candidates, the ones the
    oracle matches exactly on every argument are the ones rated
    [(0, 0, 0)]; when there is one of them it is returned; when there are
    several the resolver raises the ambiguity [TypeError], whose message is
    the heading with the key and the arguments followed by one line
    "<args> -> <return type>" for each of them, in the order of the
    cases. *)
Theorem exact_match_chosen :
  forall (cases : list Signature) (args_ : list ty)
         (l : list (nat * nat * nat * Signature)),
    rated tc cases args_ = Ret l ->
    let exact := filter (fun rc => tuple_eqb (fst rc) (0, 0, 0)) l in
    (forall r c,
        In (r, c) l ->
        (In (r, c) exact <->
         forall actual formal,
           In (actual, formal) (combine args_ (args c)) ->
           tc actual formal = Some "exact")) /\
    (forall c, exact = [((0, 0, 0), c)] ->
               _resolve_overload tc sk st sy cases args_ [] = Ret (Some c)) /\
    let nl := String (ascii_of_nat 10) EmptyString in
    let line (rc : nat * nat * nat * Signature) :=
      String.append (st (args (snd rc)))
                    (String.append " -> " (sy (return_type (snd rc)))) in
    (2 <= List.length exact ->
     _resolve_overload tc sk st sy cases args_ [] =
     Raise (TypeError
              (String.append "Ambiguous overloading for "
                 (String.append sk
                    (String.append " "
                       (String.append (st args_)
                          (String.append nl
                             (String.concat nl (map line exact))))))))).
Proof.
  intros cases args_ l H exact. split; [|split].
  - intros r c Hin.
    destruct (rated_In _ _ _ _ H _ _ Hin) as (_ & rate & Hr & ->).
    unfold exact. rewrite filter_In. cbn [fst]. rewrite tuple_eqb_eq.
    rewrite (rate_case_zero_iff _ _ _ Hr). tauto.
  - intros c He. rewrite resolve_rated, H. simpl.
    apply (best_case_unique_min sk st sy args_ l (0, 0, 0) c He).
    intros y _. apply tuple_le_zero.
  - intros nl line Hlen. rewrite resolve_rated, H. simpl.
    rewrite (best_case_tie sk st sy args_ l (0, 0, 0) Hlen);
      [reflexivity|].
    intros y _. apply tuple_le_zero.
Qed.

Lemma rated_Permutation cases cases' args_ :
  Permutation cases cases' ->
  forall l,
    rated tc cases args_ = Ret l ->
    exists l', rated tc cases' args_ = Ret l' /\ Permutation l l'.
Proof.
  induction 1 as [|x c1 c2 _ IH|x y c0|c1 c2 c3 _ IH _ IH']; intros l H.
  - exists l. split; [exact H|reflexivity].
  - simpl in H |- *.
    destruct (rate_case tc args_ x) as [o|e]; [|discriminate]. simpl in H |- *.
    destruct (rated tc c1 args_) as [l1|e]; [|discriminate].
    destruct (IH l1 eq_refl) as (l2 & -> & Hp). simpl in H |- *.
    injection H as <-. eexists. split; [reflexivity|].
    destruct o; [now constructor|assumption].
  - simpl in H |- *.
    destruct (rate_case tc args_ y) as [oy|e]; [|discriminate].
    simpl in H |- *.
    destruct (rate_case tc args_ x) as [ox|e]; [|discriminate].
    simpl in H |- *.
    destruct (rated tc c0 args_) as [l0|e]; [|discriminate].
    simpl in H |- *. injection H as <-. eexists. split; [reflexivity|].
    destruct ox, oy; try reflexivity. apply perm_swap.
  - destruct (IH l H) as (l2 & H2 & Hp2).
    destruct (IH' l2 H2) as (l3 & H3 & Hp3).
    exists l3. split; [exact H3|now transitivity l2].
Qed.

(** X7. What the resolver returns does not depend on the order of the cases:
    if it returns (a candidate or nothing) on a list of cases, it returns
    the same on every permutation of that list. *)
Theorem resolve_Permutation :
  forall (cases cases' : list Signature) (args_ : list ty) (kws : kwargs)
         (r : option Signature),
    Permutation cases cases' ->
    _resolve_overload tc sk st sy cases args_ kws = Ret r ->
    _resolve_overload tc sk st sy cases' args_ kws = Ret r.
Proof.
  intros cases cases' args_ kws r Hp H.
  destruct kws; [|discriminate].
  rewrite resolve_rated in H |- *.
  destruct (rated tc cases args_) as [l|e] eqn:Hr; [|discriminate].
  destruct (rated_Permutation _ _ _ Hp _ Hr) as (l' & -> & Hl).
  simpl in H |- *. destruct r as [c|].
  - destruct (best_case_Some_inv _ _ _ _ _ _ H) as (r & Hf & Hmin).
    apply (best_case_unique_min sk st sy args_ l' r c).
    + apply Permutation_length_1_inv. rewrite <- Hf.
      now apply filter_Permutation.
    + intros y Hy. apply Hmin.
      exact (Permutation_in _ (Permutation_sym Hl) Hy).
  - apply best_case_None_iff in H. subst l.
    apply Permutation_nil in Hl. now subst l'.
Qed.

(** X8. Keyword arguments are never accepted: with any keyword argument the
    resolver and a concrete template raise [AssertionError], and an
    abstract template returns no signature. *)
Theorem kwargs_rejected :
  forall (cases : list Signature)
         (generic : list ty -> kwargs -> res (option Signature))
         (args_ : list ty) (kws : kwargs),
    kws <> [] ->
    _resolve_overload tc sk st sy cases args_ kws = Raise AssertionError /\
    ConcreteTemplate_apply tc sk st sy cases args_ kws
    = Raise AssertionError /\
    (forall sig, AbstractTemplate_apply tc sk st sy generic args_ kws
                 <> Ret (Some sig)).
Proof.
  intros cases generic args_ kws Hk.
  destruct kws as [|kw kws]; [congruence|].
  split; [reflexivity|]. split; [now destruct cases|].
  intros sig. unfold AbstractTemplate_apply.
  destruct (generic args_ (kw :: kws)) as [[sig'|]|e]; discriminate.
Qed.

(** X9. An abstract template is never ambiguous: its one candidate is rated
    against the arguments, returned when the rating completes and dropped
    when its arity differs or a pair is incompatible. *)
Theorem AbstractTemplate_apply_rated :
  forall (generic : list ty -> kwargs -> res (option Signature))
         (args_ : list ty) (sig : Signature),
    generic args_ [] = Ret (Some sig) ->
    AbstractTemplate_apply tc sk st sy generic args_ [] =
    (r <- rate_case tc args_ sig ;;
     Ret (match r with Some _ => Some sig | None => None end)) /\
    (forall msg, AbstractTemplate_apply tc sk st sy generic args_ []
                 <> Raise (TypeError msg)) /\
    (List.length (args sig) <> List.length args_ ->
     AbstractTemplate_apply tc sk st sy generic args_ [] = Ret None).
Proof.
  intros generic args_ sig H.
  assert (E : AbstractTemplate_apply tc sk st sy generic args_ [] =
              (r <- rate_case tc args_ sig ;;
               Ret (match r with Some _ => Some sig | None => None end))).
  { unfold AbstractTemplate_apply, _select. rewrite H. simpl.
    rewrite resolve_rated. simpl.
    now destruct (rate_case tc args_ sig) as [[rate|]|e]. }
  split; [exact E|]. rewrite E. split.
  - intros msg. destruct (rate_case tc args_ sig) as [[rate|]|e] eqn:Er;
      simpl; try discriminate.
    intros Em. injection Em as ->.
    unfold rate_case in Er.
    destruct (List.length args_ =? List.length (args sig)); [|discriminate].
    revert Er. generalize Rating_init.
    induction (combine args_ (args sig)) as [|[a f] pairs IH]; intros rate;
      simpl; [discriminate|].
    destruct (tc a f) as [by_|]; [|discriminate].
    destruct (String.eqb by_ "promote"); [apply IH|].
    destruct (String.eqb by_ "safe"); [apply IH|].
    destruct (String.eqb by_ "unsafe"); [apply IH|].
    destruct (String.eqb by_ "exact"); [apply IH|discriminate].
  - intros Hl. now rewrite (rate_case_arity tc _ _ Hl).
Qed.
End ResolverOrder.

Lemma exact_match_chosen_witness :
  let add32 := signature int32 [Prim int32; Prim int32] in
  let add64 := signature int64 [Prim int64; Prim int64] in
  let wide := signature int64 [Prim int32; Prim int32] in
  let nl := String (ascii_of_nat 10) EmptyString in
  _resolve_overload example_compatibility "+" example_str_tuple
                    example_str_type [add32; add64]
                    [Prim int32; Prim int32] []
  = Ret (Some add32) /\
  _resolve_overload example_compatibility "+" example_str_tuple
                    example_str_type [add32; add64; wide]
                    [Prim int32; Prim int32] []
  = Raise (TypeError
             (String.append "Ambiguous overloading for + (int32, int32)"
                (String.append nl
                   (String.append "(int32, int32) -> int32"
                      (String.append nl "(int32, int32) -> int64"))))).
Proof.
  intros add32 add64 wide nl. split.
  - apply (exact_match_chosen
             example_compatibility "+" example_str_tuple example_str_type
             [add32; add64] [Prim int32; Prim int32]
             [((0, 0, 0), add32); ((0, 0, 2), add64)] eq_refl).
    reflexivity.
  - apply (exact_match_chosen
             example_compatibility "+" example_str_tuple example_str_type
             [add32; add64; wide] [Prim int32; Prim int32]
             [((0, 0, 0), add32); ((0, 0, 2), add64); ((0, 0, 0), wide)]
             eq_refl).
    simpl. lia.
Defined.

Lemma resolve_Permutation_witness :
  _resolve_overload example_compatibility "+" example_str_tuple
                    example_str_type
                    [signature int64 [Prim int64; Prim int64];
                     signature int32 [Prim int32; Prim int32]]
                    [Prim int32; Prim int32] []
  = Ret (Some (signature int32 [Prim int32; Prim int32])).
Proof.
  apply (resolve_Permutation
           example_compatibility "+" example_str_tuple example_str_type
           [signature int32 [Prim int32; Prim int32];
            signature int64 [Prim int64; Prim int64]]
           [signature int64 [Prim int64; Prim int64];
            signature int32 [Prim int32; Prim int32]]
           [Prim int32; Prim int32] []
           (Some (signature int32 [Prim int32; Prim int32]))).
  - apply perm_swap.
  - reflexivity.
Defined.

Lemma kwargs_rejected_witness :
  ConcreteTemplate_apply example_compatibility "range" example_str_tuple
                         example_str_type Range_cases [Prim int32]
                         [("stop", Prim int32)]
  = Raise AssertionError.
Proof.
  apply (kwargs_rejected
           example_compatibility "range" example_str_tuple example_str_type
           Range_cases (fun _ _ => Ret None) [Prim int32]
           [("stop", Prim int32)]).
  discriminate.
Defined.

Lemma AbstractTemplate_apply_rated_witness :
  AbstractTemplate_apply example_compatibility "getitem" example_str_tuple
                         example_str_type (GetItemUniTuple_generic int64)
                         [UniTuple float64 3; Prim float64] []
  = Ret None.
Proof.
  rewrite (proj1 (AbstractTemplate_apply_rated
                    example_compatibility "getitem" example_str_tuple
                    example_str_type (GetItemUniTuple_generic int64)
                    [UniTuple float64 3; Prim float64]
                    (signature float64 [UniTuple float64 3; Prim int64])
                    eq_refl)).
  reflexivity.
Defined.

(* ------------------------------------------------------------------------- *)
(** ** Calls with the formals of a case *)

Lemma combine_diag_eq (l1 : list ty) : forall l2,
  List.length l1 = List.length l2 ->
  (forall a f, In (a, f) (combine l1 l2) -> a = f) ->
  l1 = l2.
Proof.
  induction l1 as [|a l1 IH]; intros [|f l2] Hl H; try discriminate.
  - reflexivity.
  - simpl in *. rewrite (H a f (or_introl eq_refl)). f_equal.
    apply IH; [lia|]. intros a' f' Hin. apply H. now right.
Qed.

Lemma filter_args_NoDup (cases : list Signature) c :
  NoDup (map args cases) ->
  In c cases ->
  filter (fun c' => args_eqb (args c') (args c)) cases = [c].
Proof.
  induction cases as [|c' cases IH]; intros Hn Hin; [destruct Hin|].
  simpl in Hn. apply NoDup_cons_iff in Hn. destruct Hn as [Hc' Hn].
  rewrite filter_cons_eq. destruct Hin as [->|Hin].
  - rewrite (proj2 (args_eqb_eq _ _) eq_refl). f_equal.
    apply filter_none. intros c'' Hc''.
    apply not_true_iff_false. rewrite args_eqb_eq. intros E.
    apply Hc'. rewrite <- E. now apply in_map.
  - destruct (args_eqb (args c') (args c)) eqn:E; [|now apply IH].
    apply args_eqb_eq in E. destruct Hc'. rewrite E. now apply in_map.
Qed.

Section SaneOracle.
Variable tc : ty -> ty -> option string.
Hypothesis tc_sane : sane_oracle tc.

Lemma rate_args_sane pairs : forall rate,
  exists o, rate_args tc rate pairs = Ret o.
Proof.
  induction pairs as [|[a f] pairs IH]; intros rate; simpl; [eauto|].
  destruct (tc a f) as [by_|] eqn:E; [|eauto].
  destruct (proj1 tc_sane _ _ _ E) as [->|[->|[->| ->]]]; simpl; apply IH.
Qed.

Lemma rate_args_diag l : forall rate,
  rate_args tc rate (combine l l) = Ret (Some rate).
Proof.
  induction l as [|a l IH]; intros rate; simpl; [reflexivity|].
  rewrite (proj2 (proj2 tc_sane a a) eq_refl). simpl. apply IH.
Qed.

Lemma rated_sane cases args_ : exists l, rated tc cases args_ = Ret l.
Proof.
  induction cases as [|c cases [l IH]]; simpl; [eauto|].
  assert (Hc : exists o, rate_case tc args_ c = Ret o).
  { unfold rate_case.
    destruct (List.length args_ =? List.length (args c)); [|eauto].
    apply rate_args_sane. }
  destruct Hc as [o ->]. rewrite IH. simpl. eauto.
Qed.

(** The candidates rated [(0, 0, 0)] are the cases whose formals are the
    arguments, in the order of the cases. *)
Lemma rated_exact_filter cases args_ : forall l,
  rated tc cases args_ = Ret l ->
  filter (fun rc => tuple_eqb (fst rc) (0, 0, 0)) l =
  map (fun c => ((0, 0, 0), c))
      (filter (fun c => args_eqb (args c) args_) cases).
Proof.
  induction cases as [|c cases IH]; intros l H; simpl in H.
  - injection H as <-. reflexivity.
  - destruct (rate_case tc args_ c) as [o|e] eqn:Ec; [|discriminate].
    simpl in H. destruct (rated tc cases args_) as [l0|e]; [|discriminate].
    simpl in H. injection H as <-. rewrite (filter_cons_eq _ c cases).
    specialize (IH l0 eq_refl).
    destruct o as [rate|].
    + rewrite filter_cons_eq. cbn [fst].
      destruct (rate_case_Some _ _ _ _ Ec) as [Hl _].
      assert (Hz := rate_case_zero_iff tc _ _ _ Ec).
      destruct (args_eqb (args c) args_) eqn:Ea.
      * apply args_eqb_eq in Ea.
        assert (E0 : astuple rate = (0, 0, 0)).
        { apply Hz. intros a f Hin. apply (proj2 tc_sane).
          rewrite Ea in Hin. clear -Hin.
          induction args_ as [|x xs IHx]; [destruct Hin|].
          destruct Hin as [E|Hin]; [now injection E as <- <-|auto]. }
        rewrite E0, tuple_eqb_refl. simpl. now rewrite IH.
      * destruct (tuple_eqb (astuple rate) (0, 0, 0)) eqn:E0; [|exact IH].
        apply tuple_eqb_eq in E0. apply not_true_iff_false in Ea.
        destruct Ea. apply args_eqb_eq. symmetry.
        apply combine_diag_eq; [lia|].
        intros a f Hin. apply (proj2 tc_sane). now apply Hz.
    + destruct (args_eqb (args c) args_) eqn:Ea; [|exact IH].
      apply args_eqb_eq in Ea. unfold rate_case in Ec.
      rewrite <- Ea, Nat.eqb_refl, rate_args_diag in Ec. discriminate.
Qed.

Lemma resolve_exact_call sk st sy cases c :
  NoDup (map args cases) ->
  In c cases ->
  _resolve_overload tc sk st sy cases (args c) [] = Ret (Some c).
Proof.
  intros Hn Hin.
  destruct (rated_sane cases (args c)) as [l Hl].
  rewrite resolve_rated, Hl. simpl.
  apply (best_case_unique_min sk st sy (args c) l (0, 0, 0) c).
  - rewrite (rated_exact_filter _ _ _ Hl), filter_args_NoDup by assumption.
    reflexivity.
  - intros y _. apply tuple_le_zero.
Qed.
End SaneOracle.


Lemma example_compatibility_sane : sane_oracle example_compatibility.
Proof.
  split.
  - intros actual formal by_. unfold example_compatibility, recognised.
    destruct (ty_eqb actual formal); [intros E; injection E as <-; auto|].
    destruct (ty_eqb actual int32 && ty_eqb formal int64);
      [intros E; injection E as <-; auto|].
    destruct (ty_eqb actual int32 && ty_eqb formal float64);
      [intros E; injection E as <-; auto|].
    destruct (ty_eqb actual int64 && ty_eqb formal int32);
      [intros E; injection E as <-; auto|discriminate].
  - intros actual formal. unfold example_compatibility.
    destruct (ty_eqb actual formal) eqn:E.
    + apply ty_eqb_eq in E. tauto.
    + apply ty_eqb_neq in E.
      destruct (ty_eqb actual int32 && ty_eqb formal int64);
        [split; [discriminate|tauto]|].
      destruct (ty_eqb actual int32 && ty_eqb formal float64);
        [split; [discriminate|tauto]|].
      destruct (ty_eqb actual int64 && ty_eqb formal int32);
        split; try discriminate; tauto.
Qed.


Lemma concrete_catalogue_NoDup intp cases :
  In cases (concrete_catalogue intp) -> NoDup (map args cases).
Proof.
  unfold concrete_catalogue.
  intros [<-|[<-|[<-|[<-|[<-|[<-|[<-|[<-|[<-|[<-|[<-|[<-|[]]]]]]]]]]]]];
    repeat constructor; simpl; intuition discriminate.
Qed.

(** X11. In every concrete template of the catalogue the cases have pairwise
    different formals, so each case is what the template returns for a call
    with exactly its formals, under any such oracle. *)
Theorem catalogue_exact_call :
  forall (intp : prim) (tc : ty -> ty -> option string) (sk : string)
         (st : list ty -> string) (sy : ty -> string)
         (cases : list Signature) (c : Signature),
    sane_oracle tc ->
    In cases (concrete_catalogue intp) ->
    In c cases ->
    NoDup (map args cases) /\
    ConcreteTemplate_apply tc sk st sy cases (args c) [] = Ret (Some c).
Proof.
  intros intp tc sk st sy cases c Hs Hcat Hin.
  assert (Hn := concrete_catalogue_NoDup intp cases Hcat).
  split; [exact Hn|].
  unfold ConcreteTemplate_apply, _select.
  destruct cases as [|c0 cases']; [destruct Hin|].
  exact (resolve_exact_call tc Hs sk st sy (c0 :: cases') c Hn Hin).
Qed.

Lemma catalogue_exact_call_witness :
  ConcreteTemplate_apply example_compatibility "**" example_str_tuple
                         example_str_type BinOpPower_cases
                         [Prim float64; Prim int32] []
  = Ret (Some (signature float64 [Prim float64; Prim int32])).
Proof.
  apply (catalogue_exact_call
           int64 example_compatibility "**" example_str_tuple
           example_str_type BinOpPower_cases
           (signature float64 [Prim float64; Prim int32])
           example_compatibility_sane).
  - unfold concrete_catalogue. simpl. auto 20.
  - simpl. auto 10.
Defined.

(* ------------------------------------------------------------------------- *)
(** ** The abstract templates, one with another *)

Ltac case_args args_ :=
  destruct args_ as [|?a [|?b [|?c [|?d ?rest]]]]; simpl; try discriminate.

(** X12. Whatever signature a [generic] of the catalogue computes has as many
    formals as the call has arguments, keeps the first argument as its first
    formal and has no receiver: the arity gate of the resolver never
    rejects it. *)
Theorem generic_keeps_arity :
  forall (intp : prim)
         (generic : list ty -> kwargs -> res (option Signature))
         (args_ : list ty) (kws : kwargs) (sig : Signature),
    In generic (abstract_catalogue intp) ->
    generic args_ kws = Ret (Some sig) ->
    List.length (args sig) = List.length args_ /\
    hd_error (args sig) = hd_error args_ /\
    recvr sig = None.
Proof.
  intros intp generic args_ kws sig Hg.
  unfold abstract_catalogue in Hg.
  destruct Hg as [<-|[<-|[<-|[<-|[<-|[<-|[<-|[<-|[<-|[]]]]]]]]]].
  - unfold GetIterUniTuple_generic. destruct kws; [|discriminate].
    case_args args_. destruct (is_UniTuple a); [|discriminate].
    intros E. injection E as <-. auto.
  - unfold IterNextSafe_generic. destruct kws; [|discriminate].
    case_args args_. destruct a; try discriminate.
    destruct (dtype_of a) as [dtype|e]; [|discriminate]. simpl.
    intros E. injection E as <-. auto.
  - unfold GetItemUniTuple_generic. case_args args_.
    destruct a; try discriminate. intros E. injection E as <-. auto.
  - unfold GetItemArray_generic. destruct kws; [|discriminate].
    case_args args_. destruct a; try discriminate.
    destruct (ty_eqb (normalize_index intp b) slice2_type
              || ty_eqb (normalize_index intp b) slice3_type).
    { simpl. intros E. injection E as <-. auto. }
    destruct (normalize_index intp b) eqn:En;
      try (destruct (ty_eqb _ intp); [|discriminate];
           destruct (negb (ndim =? 1)); [discriminate|];
           intros E; injection E as <-; auto).
    destruct (count <? ndim); [discriminate|].
    destruct (ndim <? count); [discriminate|].
    intros E. injection E as <-. auto.
  - unfold SetItemArray_generic. destruct kws; [|discriminate].
    case_args args_. destruct a; try discriminate.
    intros E. injection E as <-. auto.
  - unfold LenArray_generic. destruct kws; [|discriminate].
    case_args args_. destruct (is_Array a); [|discriminate].
    intros E. injection E as <-. auto.
  - unfold CmpOpEqArray_generic. destruct kws; [|discriminate].
    case_args args_. destruct (is_Array a && ty_eqb a b); [|discriminate].
    destruct (Array_copy a (Some (Prim boolean)) None None); [|discriminate].
    intros E. injection E as <-. auto.
  - unfold Numpy_unary_ufunc_generic. destruct kws; [|discriminate].
    case_args args_. destruct a; try discriminate.
    destruct b; try discriminate.
    destruct (negb (ty_eqb a b)); [discriminate|].
    intros E. injection E as <-. auto.
  - unfold Numpy_binary_ufunc_generic. destruct kws; [|discriminate].
    case_args args_. destruct a; try discriminate.
    destruct b; try discriminate. destruct c; try discriminate.
    destruct (negb (ty_eqb a b) && negb (ty_eqb a c)); [discriminate|].
    intros E. injection E as <-. auto.
Qed.

Lemma generic_keeps_arity_witness :
  List.length
    (args (signature none [Array float32 2 C; UniTuple int64 2;
                           Prim float32])) = 3.
Proof.
  apply (generic_keeps_arity
           int64 (SetItemArray_generic int64)
           [Array float32 2 C; UniTuple int32 2; Prim float64] []
           (signature none [Array float32 2 C; UniTuple int64 2;
                            Prim float32])).
  - unfold abstract_catalogue. simpl. auto 10.
  - reflexivity.
Defined.

(** X13. The two templates registered for "getitem" never both compute a
    signature for the same call: when the one for uniform tuples does, the
    first argument is a uniform tuple, the one for arrays computes none, and
    the element type that indexing returns is the one that iterating over
    the tuple ("getiter", then "iternextsafe") yields. *)
Theorem tuple_getitem_and_iteration :
  forall (intp : prim) (args_ : list ty) (kws : kwargs) (s1 : Signature),
    GetItemUniTuple_generic intp args_ kws = Ret (Some s1) ->
    (forall s2, GetItemArray_generic intp args_ kws <> Ret (Some s2)) /\
    exists dtype count idx,
      let tup := UniTuple dtype count in
      args_ = [tup; idx] /\
      s1 = signature dtype [tup; normalize_index intp idx] /\
      GetIterUniTuple_generic [tup] []
      = Ret (Some (signature (UniTupleIter tup) [tup])) /\
      IterNextSafe_generic [UniTupleIter tup] []
      = Ret (Some (signature dtype [UniTupleIter tup])).
Proof.
  intros intp args_ kws s1.
  unfold GetItemUniTuple_generic, GetItemArray_generic.
  case_args args_. destruct a; try discriminate.
  intros E. injection E as <-. split.
  - intros s2. destruct kws; discriminate.
  - exists a, count, b. repeat split.
Qed.

Lemma tuple_getitem_and_iteration_witness :
  GetItemArray_generic int64 [UniTuple float64 3; Prim int32] []
  <> Ret (Some (signature float64 [UniTuple float64 3; Prim int64])).
Proof.
  apply (tuple_getitem_and_iteration
           int64 [UniTuple float64 3; Prim int32] []
           (signature float64 [UniTuple float64 3; Prim int64]) eq_refl).
Defined.

(** X14. The loop variable of [range(...)]: for every case of [Range], "getiter"
    has a case for the range state it returns, "iternext" and "itervalid"
    have a case for that iterator, and the integer "iternext" returns is the
    type of every argument of the [range] call. *)
Theorem range_iteration_chain :
  forall sig,
    In sig Range_cases ->
    exists it nx iv,
      In it GetIter_cases /\ args it = [return_type sig] /\
      In nx IterNext_cases /\ args nx = [return_type it] /\
      In iv IterValid_cases /\ args iv = [return_type it] /\
      return_type iv = boolean /\
      forall a, In a (args sig) -> a = return_type nx.
Proof.
  intros sig [<-|[<-|[<-|[<-|[<-|[]]]]]].
  1, 2: exists (signature range_iter32_type [Prim range_state32_type]),
               (signature int32 [Prim range_iter32_type]),
               (signature boolean [Prim range_iter32_type]).
  3, 4, 5: exists (signature range_iter64_type [Prim range_state64_type]),
                  (signature int64 [Prim range_iter64_type]),
                  (signature boolean [Prim range_iter64_type]).
  all: simpl; repeat split; auto; intros a Ha; intuition.
Qed.

Lemma range_iteration_chain_witness :
  exists it nx iv,
    In it GetIter_cases /\ args it = [Prim range_state64_type] /\
    In nx IterNext_cases /\ args nx = [return_type it] /\
    In iv IterValid_cases /\ args iv = [return_type it] /\
    return_type iv = boolean /\
    forall a, In a [Prim int64; Prim int64] -> a = return_type nx.
Proof.
  apply (range_iteration_chain
           (signature range_state64_type [Prim int64; Prim int64])).
  simpl. auto 10.
Defined.

(** X15. "setitem" on an array mirrors "getitem": whenever "getitem" computes a
    signature, "setitem" takes the same array and the same normalised index
    followed by the element type. "getitem" returns that element type when
    the normalised index is not a slice, and the array with layout 'A' when
    it is one, which it always accepts. Unlike "getitem", "setitem" computes
    its signature for every index, also a tuple whose length is not the
    rank. *)
Theorem setitem_mirrors_getitem :
  forall (intp : prim) (dtype : ty) (ndim : nat) (lay : layout)
         (idx val : ty),
    let ary := Array dtype ndim lay in
    SetItemArray_generic intp [ary; idx; val] []
    = Ret (Some (signature none [ary; normalize_index intp idx; dtype])) /\
    (forall g,
        GetItemArray_generic intp [ary; idx] [] = Ret (Some g) ->
        args g = [ary; normalize_index intp idx] /\
        recvr g = None /\
        (normalize_index intp idx = slice2_type \/
         normalize_index intp idx = slice3_type ->
         return_type g = Array dtype ndim A) /\
        (normalize_index intp idx <> slice2_type ->
         normalize_index intp idx <> slice3_type ->
         return_type g = dtype)) /\
    (normalize_index intp idx = slice2_type \/
     normalize_index intp idx = slice3_type ->
     GetItemArray_generic intp [ary; idx] []
     = Ret (Some (signature (Array dtype ndim A)
                            [ary; normalize_index intp idx]))).
Proof.
  intros intp dtype ndim lay idx val ary. split; [reflexivity|]. split.
  - intros g. unfold GetItemArray_generic, ary. simpl.
    destruct (ty_eqb (normalize_index intp idx) slice2_type) eqn:E2.
    { simpl. intros E. injection E as <-. apply ty_eqb_eq in E2. simpl.
      repeat split; auto. intros H. destruct (H E2). }
    destruct (ty_eqb (normalize_index intp idx) slice3_type) eqn:E3.
    { simpl. intros E. injection E as <-. apply ty_eqb_eq in E3. simpl.
      repeat split; auto. intros _ H. destruct (H E3). }
    apply ty_eqb_neq in E2, E3. simpl.
    assert (Hs : normalize_index intp idx = slice2_type \/
                 normalize_index intp idx = slice3_type -> False) by tauto.
    destruct (normalize_index intp idx) eqn:En;
      try (destruct (ty_eqb _ intp); [|discriminate];
           destruct (negb (ndim =? 1)); [discriminate|];
           intros E; injection E as <-; simpl;
           repeat split; auto; intros H; destruct (Hs H)).
    destruct (count <? ndim); [discriminate|].
    destruct (ndim <? count); [discriminate|].
    intros E. injection E as <-. simpl.
    repeat split; auto. intros H. destruct (Hs H).
  - intros H. unfold GetItemArray_generic, ary. simpl.
    destruct H as [-> | ->]; reflexivity.
Qed.

Lemma setitem_mirrors_getitem_witness :
  SetItemArray_generic int64 [Array float32 2 C; UniTuple int32 3;
                              Prim float32] []
  = Ret (Some (signature none [Array float32 2 C; UniTuple int64 3;
                               Prim float32])) /\
  return_type (signature (Array float32 2 A)
                         [Array float32 2 C; Prim slice3_type])
  = Array float32 2 A /\
  return_type (signature float32 [Array float32 2 C; UniTuple int64 2])
  = float32.
Proof.
  split; [|split].
  - apply (setitem_mirrors_getitem int64 float32 2 C (UniTuple int32 3)
                                   float32).
  - destruct (setitem_mirrors_getitem int64 float32 2 C slice3_type float32)
      as (_ & H & _).
    apply (H (signature (Array float32 2 A)
                        [Array float32 2 C; Prim slice3_type]) eq_refl).
    now right.
  - destruct (setitem_mirrors_getitem int64 float32 2 C (UniTuple int32 2)
                                      float32) as (_ & H & _).
    apply (H (signature float32 [Array float32 2 C; UniTuple int64 2])
             eq_refl); discriminate.
Defined.

(** X16. [==] on arrays computes a signature exactly when the first operand is
    an array and the second has the very same type; the result is an array
    of booleans of the same rank and layout. *)
Theorem CmpOpEqArray_same_type :
  forall (va vb : ty) (sig : Signature),
    CmpOpEqArray_generic [va; vb] [] = Ret (Some sig) <->
    exists dtype ndim lay,
      va = Array dtype ndim lay /\ vb = va /\
      sig = signature (Array boolean ndim lay) [va; vb].
Proof.
  intros va vb sig. unfold CmpOpEqArray_generic. simpl. split.
  - destruct va; simpl; try discriminate.
    destruct (ty_eqb (Array va ndim lay) vb) eqn:E; [|discriminate].
    apply ty_eqb_eq in E. subst vb. intros H. injection H as <-.
    exists va, ndim, lay. auto.
  - intros (dtype & ndim & lay & -> & -> & ->). simpl.
    now rewrite ty_eqb_refl.
Qed.

(** X17. A unary ufunc computes a signature for two arrays exactly when their
    dtypes agree; then the binary ufunc computes one for the same input and
    output with any array as second operand, whatever its dtype. *)
Theorem Numpy_unary_ufunc_dtype :
  forall (dinp dout dw : ty) (ni nout nw : nat) (li lout lw : layout),
    let inp := Array dinp ni li in
    let out := Array dout nout lout in
    let w := Array dw nw lw in
    (Numpy_unary_ufunc_generic [inp; out] [] = Ret None <-> dinp <> dout) /\
    (dinp = dout ->
     Numpy_unary_ufunc_generic [inp; out] []
     = Ret (Some (signature out [inp; out])) /\
     Numpy_binary_ufunc_generic [inp; w; out] []
     = Ret (Some (signature out [inp; w; out]))).
Proof.
  intros dinp dout dw ni nout nw li lout lw inp out w.
  unfold Numpy_unary_ufunc_generic, Numpy_binary_ufunc_generic, inp, out, w,
    ty_eqb.
  simpl. destruct (ty_eq_dec dinp dout) as [E|E]; simpl.
  - split; [split; [discriminate|tauto]|].
    intros _. split; [reflexivity|].
    now destruct (ty_eq_dec dinp dw).
  - split; [tauto|]. intros E'. destruct (E E').
Qed.

Lemma Numpy_unary_ufunc_dtype_witness :
  Numpy_binary_ufunc_generic
    [Array float32 1 C; Array int8 2 F; Array float32 1 C] []
  = Ret (Some (signature (Array float32 1 C)
                 [Array float32 1 C; Array int8 2 F; Array float32 1 C])).
Proof.
  apply (Numpy_unary_ufunc_dtype float32 float32 int8 1 1 2 C C F).
  reflexivity.
Defined.

(** X18. Flattening and what precedes it: an array that "flatten" returns can be
    flattened again and gives the same type, while a slice "getitem" of an
    array returns that array with layout 'A', which cannot be flattened. *)
Theorem flatten_after :
  forall (intp : prim) (dtype : ty) (ndim : nat) (lay : layout),
    (forall sig,
        Array_flatten_generic (Array dtype ndim lay) [] [] = Ret (Some sig) ->
        Array_flatten_generic (return_type sig) [] []
        = Ret (Some (signature_recvr (return_type sig) []
                                     (return_type sig)))) /\
    (forall idx,
        idx = Prim slice2_type \/ idx = Prim slice3_type ->
        exists g,
          GetItemArray_generic intp [Array dtype ndim lay; idx] []
          = Ret (Some g) /\
          return_type g = Array dtype ndim A /\
          Array_flatten_generic (return_type g) [] [] = Ret None).
Proof.
  intros intp dtype ndim lay. split.
  - intros sig. rewrite Array_flatten_generic_Array.
    destruct lay; try discriminate. intros E. injection E as <-. reflexivity.
  - intros idx [-> | ->]; eexists; repeat split.
Qed.

Lemma flatten_after_witness :
  Array_flatten_generic (Array int32 1 C) [] []
  = Ret (Some (signature_recvr (Array int32 1 C) [] (Array int32 1 C))) /\
  exists g,
    GetItemArray_generic int64 [Array int32 3 C; Prim slice2_type] []
    = Ret (Some g) /\
    return_type g = Array int32 3 A /\
    Array_flatten_generic (return_type g) [] [] = Ret None.
Proof.
  destruct (flatten_after int64 int32 3 C) as [Hf Hs]. split.
  - apply (Hf (signature_recvr (Array int32 1 C) [] (Array int32 3 C))).
    reflexivity.
  - apply (Hs (Prim slice2_type)). now left.
Defined.

(* ------------------------------------------------------------------------- *)
(** ** Attributes, globals and the registries *)

Lemma getattr_resolve_In hs attr fn :
  getattr_resolve hs attr = Some fn -> In (attr, fn) hs.
Proof.
  induction hs as [|[name fn'] hs IH]; simpl; [discriminate|].
  destruct (String.eqb attr name) eqn:E.
  - apply String.eqb_eq in E. subst name. intros H. injection H as <-.
    now left.
  - intros H. right. now apply IH.
Qed.

(** X20. An array has the attributes "shape" and "flatten" and no other; its
    shape is a tuple of [ndim] integers of type [intp], which "getitem"
    accepts as an index of that array and turns into the element type. *)
Theorem ArrayAttribute_shape_indexes :
  forall (intp : prim) (dtype : ty) (ndim : nat) (lay : layout)
         (attr : string),
    let ary := Array dtype ndim lay in
    AttributeTemplate_resolve (ArrayAttribute intp) ary "shape"
    = Ret (UniTuple intp ndim) /\
    GetItemArray_generic intp [ary; UniTuple intp ndim] []
    = Ret (Some (signature dtype [ary; UniTuple intp ndim])) /\
    AttributeTemplate_resolve (ArrayAttribute intp) ary "flatten"
    = Ret (Method Array_flatten ary) /\
    (attr <> "shape" -> attr <> "flatten" ->
     AttributeTemplate_resolve (ArrayAttribute intp) ary attr
     = Raise (NotImplementedError ary attr)) /\
    AttributeTemplate_resolve (ArrayAttribute intp) ary attr
    = ArrayAttribute_resolve intp ary attr.
Proof.
  intros intp dtype ndim lay attr ary. split; [reflexivity|].
  split.
  { unfold ary. rewrite GetItemArray_generic_UniTuple.
    now rewrite Nat.eqb_refl. }
  split; [reflexivity|]. split.
  - intros H1 H2. apply String.eqb_neq in H1, H2.
    unfold AttributeTemplate_resolve, ArrayAttribute. simpl.
    now rewrite H1, H2.
  - unfold AttributeTemplate_resolve, ArrayAttribute, ArrayAttribute_resolve.
    simpl. destruct (String.eqb attr "shape"); [reflexivity|].
    now destruct (String.eqb attr "flatten").
Qed.

Lemma ArrayAttribute_shape_indexes_witness :
  AttributeTemplate_resolve (ArrayAttribute int64) (Array int32 3 C) "ndim"
  = Raise (NotImplementedError (Array int32 3 C) "ndim").
Proof.
  apply (ArrayAttribute_shape_indexes int64 int32 3 C "ndim"); discriminate.
Defined.

(** X21. The attributes of a complex type are "real" and "imag", both of the
    inner floating-point type of the template ([float32] for [complex64],
    [float64] for [complex128]), whatever value they are asked of; every
    other name raises [NotImplementedError]. *)
Theorem ComplexAttribute_real_imag :
  forall (innertype value : ty) (attr : string),
    (attr = "real" \/ attr = "imag" ->
     AttributeTemplate_resolve (ComplexAttribute innertype) value attr
     = Ret innertype) /\
    (attr <> "real" -> attr <> "imag" ->
     AttributeTemplate_resolve (ComplexAttribute innertype) value attr
     = Raise (NotImplementedError value attr)) /\
    AttributeTemplate_resolve Complex64Attribute complex64 "real"
    = Ret (Prim float32) /\
    AttributeTemplate_resolve Complex128Attribute complex128 "imag"
    = Ret (Prim float64).
Proof.
  intros innertype value attr. split; [|split; [|split; reflexivity]].
  - intros [-> | ->]; reflexivity.
  - intros H1 H2. apply String.eqb_neq in H1, H2.
    unfold AttributeTemplate_resolve. simpl. now rewrite H1, H2.
Qed.

Lemma ComplexAttribute_real_imag_witness :
  AttributeTemplate_resolve (ComplexAttribute float32) complex64 "conjugate"
  = Raise (NotImplementedError complex64 "conjugate").
Proof.
  apply (ComplexAttribute_real_imag float32 complex64 "conjugate");
    discriminate.
Defined.

Lemma getattr_resolve_Some_iff hs attr fn :
  NoDup (map fst hs) ->
  getattr_resolve hs attr = Some fn <-> In (attr, fn) hs.
Proof.
  intros Hn. split; [apply getattr_resolve_In|].
  induction hs as [|[name fn'] hs IH]; simpl; [tauto|].
  simpl in Hn. apply NoDup_cons_iff in Hn. destruct Hn as [Hname Hn].
  intros [E|Hin].
  - injection E as -> ->. now rewrite String.eqb_refl.
  - destruct (String.eqb attr name) eqn:E; [|now apply IH].
    apply String.eqb_eq in E. subst name.
    destruct Hname. change attr with (fst (attr, fn)). now apply in_map.
Qed.

Lemma module_attribute_NoDup m : NoDup (map fst (module_attribute m)).
Proof.
  destruct m;
    match goal with
    | |- NoDup ?l =>
        replace l with (nodup string_dec l) by (vm_compute; reflexivity)
    end; apply NoDup_nodup.
Qed.

(** The list [BUILTIN_GLOBALS] once the file has run. *)
Lemma module_globals_shape (template : Type) (PYVERSION : nat * nat) :
  BUILTIN_GLOBALS (module_globals PYVERSION (@registry_init template pyvalue))
  = ((py_range, Prim range_type)
       :: (if before_python3 PYVERSION
           then [(py_xrange, Prim range_type)] else [])
       ++ [(py_len, Prim len_type); (py_slice, Prim slice_type);
           (py_abs, Prim abs_type); (py_print, Prim print_type);
           (py_module math, Module_ math)])
    ++ attribute_bindings math
    ++ [(py_module numpy, Module_ numpy)]
    ++ attribute_bindings numpy.
Proof.
  unfold module_globals. destruct (before_python3 PYVERSION); reflexivity.
Qed.

Lemma attribute_bindings_In m v t :
  In (v, t) (attribute_bindings m) <->
  exists name,
    v = py_function m name /\
    AttributeTemplate_resolve (module_attribute m) (Module_ m) name = Ret t.
Proof.
  unfold attribute_bindings, AttributeTemplate_resolve.
  rewrite in_flat_map. split.
  - intros ([name fn] & Hin & H). simpl in H.
    destruct (fn (Module_ m)) as [t'|e] eqn:Efn; [|destruct H].
    destruct H as [E|[]]. injection E as <- <-.
    exists name. split; [reflexivity|].
    now rewrite (proj2 (getattr_resolve_Some_iff _ _ _
                          (module_attribute_NoDup m)) Hin).
  - intros (name & -> & H).
    destruct (getattr_resolve (module_attribute m) name) as [fn|] eqn:E;
      [|discriminate].
    exists (name, fn). split; [now apply getattr_resolve_In|].
    simpl. rewrite H. now left.
Qed.

(** X22. Attribute access and global lookup agree on the two modules: a name
    resolves as an attribute of [math] or [numpy] to a type exactly when the
    file binds the function of that name of that module to the same type;
    no value is bound twice, and [xrange] is bound (to the type of [range])
    exactly before Python 3. *)
Theorem module_attributes_are_globals :
  forall (template : Type) (PYVERSION : nat * nat),
    let globals :=
      BUILTIN_GLOBALS
        (module_globals PYVERSION (@registry_init template pyvalue)) in
    (forall m name t,
        AttributeTemplate_resolve (module_attribute m) (Module_ m) name
        = Ret t <->
        In (py_function m name, t) globals) /\
    NoDup (map fst globals) /\
    (forall t, In (py_xrange, t) globals <->
               fst PYVERSION < 3 /\ t = Prim range_type) /\
    In (py_range, Prim range_type) globals.
Proof.
  intros template PYVERSION globals.
  assert (Hv : before_python3 PYVERSION = true <-> fst PYVERSION < 3).
  { destruct PYVERSION as [major minor]. unfold before_python3. cbn [fst].
    destruct (major <? 3) eqn:E.
    - apply Nat.ltb_lt in E. tauto.
    - apply Nat.ltb_ge in E. destruct (major =? 3).
      + split; [intros H; apply Nat.ltb_lt in H; lia|lia].
      + split; [discriminate|lia]. }
  assert (Hb : forall m v t,
             In (v, t) (attribute_bindings m) ->
             exists name, v = py_function m name).
  { intros m v t H. apply attribute_bindings_In in H.
    destruct H as (name & -> & _). eauto. }
  split; [|split; [|split]].
  - intros m name t. unfold globals. rewrite module_globals_shape.
    rewrite !in_app_iff, !attribute_bindings_In. split.
    + intros H. destruct m.
      * right. left. eauto.
      * right. right. right. eauto.
    + intros [H|[H|[H|H]]].
      * destruct (before_python3 PYVERSION); simpl in H;
          intuition discriminate.
      * destruct H as (name' & E & H). now injection E as -> ->.
      * simpl in H. intuition discriminate.
      * destruct H as (name' & E & H). now injection E as -> ->.
  - unfold globals, module_globals.
    destruct (before_python3 PYVERSION);
      match goal with
      | |- NoDup ?l =>
          replace l with (nodup pyvalue_eq_dec l) by (vm_compute; reflexivity)
      end; apply NoDup_nodup.
  - intros t. rewrite <- Hv. unfold globals. rewrite module_globals_shape.
    rewrite !in_app_iff. split.
    + intros [H|[H|[H|H]]].
      * destruct (before_python3 PYVERSION); simpl in H.
        -- destruct H as [H|[H|H]];
             [discriminate H|injection H as <-; auto|intuition discriminate].
        -- intuition discriminate.
      * destruct (Hb _ _ _ H) as [name E]. discriminate.
      * simpl in H. intuition discriminate.
      * destruct (Hb _ _ _ H) as [name E]. discriminate.
    + intros [-> ->]. left. simpl. auto.
  - unfold globals. rewrite module_globals_shape. now left.
Qed.

Section RegistryFacts.
Context {template value : Type}.
Variable is_attr : template -> bool.

Lemma builtin_all_app (reg : registry template value) ts t :
  builtin_all is_attr reg (ts ++ [t]) =
  fst (builtin is_attr (builtin_all is_attr reg ts) t).
Proof. unfold builtin_all. now rewrite fold_left_app. Qed.

(** X23. [builtin] sorts the templates into the two lists: after any run of
    decorations, [BUILTIN_ATTRS] has grown by the attribute templates of the
    run and [BUILTINS] by the others, each in the order of the run;
    [BUILTIN_GLOBALS] is untouched and every class comes back unchanged. *)
Theorem builtin_partitions :
  forall (reg : registry template value) (ts : list template),
    let reg' := builtin_all is_attr reg ts in
    BUILTIN_ATTRS reg' = BUILTIN_ATTRS reg ++ filter is_attr ts /\
    BUILTINS reg' = BUILTINS reg ++ filter (fun t => negb (is_attr t)) ts /\
    BUILTIN_GLOBALS reg' = BUILTIN_GLOBALS reg /\
    (forall t, snd (builtin is_attr reg t) = t) /\
    (forall v t,
        BUILTINS (builtin_global reg v t) = BUILTINS reg /\
        BUILTIN_ATTRS (builtin_global reg v t) = BUILTIN_ATTRS reg /\
        BUILTIN_GLOBALS (builtin_global reg v t)
        = BUILTIN_GLOBALS reg ++ [(v, t)]).
Proof.
  intros reg ts reg'. subst reg'.
  assert (H : BUILTIN_ATTRS (builtin_all is_attr reg ts)
              = BUILTIN_ATTRS reg ++ filter is_attr ts /\
              BUILTINS (builtin_all is_attr reg ts)
              = BUILTINS reg ++ filter (fun t => negb (is_attr t)) ts /\
              BUILTIN_GLOBALS (builtin_all is_attr reg ts)
              = BUILTIN_GLOBALS reg).
  { revert reg. induction ts as [|t ts IH]; intros reg.
    - simpl. now rewrite !app_nil_r.
    - change (builtin_all is_attr reg (t :: ts))
        with (builtin_all is_attr (fst (builtin is_attr reg t)) ts).
      destruct (IH (fst (builtin is_attr reg t))) as (-> & -> & ->).
      unfold builtin. simpl. destruct (is_attr t); simpl;
        rewrite <- ?app_assoc; auto. }
  destruct H as (Ha & Hb & Hg).
  repeat split; try assumption.
  intros t. unfold builtin. now destruct (is_attr t).
Qed.
End RegistryFacts.
